(** * Build-time image optimization cache

    A shallow embedding of the image helper module of the blog
    (getCacheKey, optimizeImage, getOptimizedHeroImage,
    getOptimizedCardImage, isValidImagePath) and the properties its
    specification states about it.

    Conventions of the embedding.
    - A JavaScript [number] is an integer [Z] (pixel counts and quality
      percentages); [0] is the only falsy number.  Fractions, [NaN] and the
      exponent form in which the code prints very small and very large
      numbers are outside the embedding.  An optional field is an [option];
      [None] is [undefined].
    - The module-level [imageCache] (a [Map]) is a [gmap string _] inside an
      explicit state, threaded through every function.
    - The state also carries a chronological trace of what the module did to
      the outside: calls of the transcoding capability [getImage],
      [imageCache.set], [console.warn] and [console.error].
    - A thrown exception is an outcome [Threw]; [try]/[catch] is a combinator.
    - [getImage] is the external capability.  It is a variable of the
      development: an arbitrary function of the history so far and of its
      argument, which either returns a result or throws.
    - [async] functions are run to completion, one call after the other.

    The two RSS handlers ([GET]) of the site are embedded as well: they
    fetch the blog collection, sort it by date and hand the items to [rss];
    [getCollection] and [rss] are the framework's and are arguments here. *)

From Stdlib Require Import ZArith Lia Ascii.
From stdpp Require Import base option strings pretty list sorting gmap.

Local Open Scope Z_scope.

(** ** Data model *)

(** [format?: 'avif' | 'webp' | 'png' | 'jpg' | 'jpeg'] *)
Inductive ImageFormat : Type := avif | webp | png | jpg | jpeg.

Definition ImageFormat_toString (f : ImageFormat) : string :=
  match f with
  | avif => "avif"
  | webp => "webp"
  | png => "png"
  | jpg => "jpg"
  | jpeg => "jpeg"
  end.

(** The asset-metadata handle of an imported image: the module reads its
    [src], [width] and [height]. *)
Record ImageMetadata : Type := mkImageMetadata {
  meta_src : string;
  meta_width : Z;
  meta_height : Z;
  meta_format : string
}.

(** What can sit in a [src] slot at run time:
    [string | ImageMetadata | undefined]. *)
Inductive ImageSource : Type :=
| SrcUndefined
| SrcString (s : string)
| SrcMetadata (m : ImageMetadata).

(** [interface OptimizeImageOptions] *)
Record OptimizeImageOptions : Type := mkOptions {
  src : ImageSource;
  width : option Z;
  height : option Z;
  format : option ImageFormat;
  quality : option Z;
  alt : option string
}.

(** The second, optional argument of the two wrappers. *)
Record PresetOverrides : Type := mkOverrides {
  ov_width : option Z;
  ov_height : option Z;
  ov_format : option ImageFormat;
  ov_quality : option Z
}.

(** The object handed to [getImage], also echoed in a result as [options]
    and [rawOptions]. *)
Record ImageTransform : Type := mkTransform {
  t_src : ImageSource;
  t_width : option Z;
  t_height : option Z;
  t_format : option ImageFormat;
  t_quality : option Z
}.

Record SrcSetValue : Type := mkSrcSetValue {
  ssv_url : string;
  ssv_descriptor : string
}.

Record SrcSet : Type := mkSrcSet {
  values : list SrcSetValue;
  attribute : string
}.

Record ImageAttributes : Type := mkAttributes {
  attr_width : option Z;
  attr_height : option Z
}.

(** [GetImageResult] *)
Record GetImageResult : Type := mkResult {
  res_src : string;
  attributes : ImageAttributes;
  options : ImageTransform;
  rawOptions : ImageTransform;
  srcSet : SrcSet
}.

(** Thrown values. *)
Inductive Exn : Type :=
| TypeError (msg : string)
| CapabilityError (msg : string).

(** ** Observable effects and state *)

Inductive Event : Type :=
| EvGetImage (t : ImageTransform)
| EvCacheSet (k : string) (r : GetImageResult)
| EvWarn (msg : string)
| EvError (msg : string) (e : Exn).

Record State : Type := mkState {
  imageCache : gmap string GetImageResult;
  trace : list Event
}.

(** [const imageCache = new Map<string, GetImageResult>()] at module load. *)
Definition initialState : State := {| imageCache := ∅; trace := [] |}.

Definition is_getImage (e : Event) : bool :=
  match e with EvGetImage _ => true | _ => false end.
Definition is_cacheSet (e : Event) : bool :=
  match e with EvCacheSet _ _ => true | _ => false end.
Definition is_warn (e : Event) : bool :=
  match e with EvWarn _ => true | _ => false end.
Definition is_error (e : Event) : bool :=
  match e with EvError _ _ => true | _ => false end.

Definition count_events (p : Event -> bool) (tr : list Event) : nat :=
  length (List.filter p tr).

(** ** A state-and-exception monad *)

Inductive Outcome (A : Type) : Type :=
| Returned (a : A)
| Threw (e : Exn).
Arguments Returned {A} a.
Arguments Threw {A} e.

Definition M (A : Type) : Type := State -> Outcome A * State.

Definition ret {A} (a : A) : M A := fun st => (Returned a, st).
Definition throw {A} (e : Exn) : M A := fun st => (Threw e, st).
Definition bind {A B} (m : M A) (k : A -> M B) : M B :=
  fun st =>
    match m st with
    | (Returned a, st') => k a st'
    | (Threw e, st') => (Threw e, st')
    end.
Definition try_catch {A} (body : M A) (handler : Exn -> M A) : M A :=
  fun st =>
    match body st with
    | (Returned a, st') => (Returned a, st')
    | (Threw e, st') => handler e st'
    end.
Definition lift {A} (o : Outcome A) : M A := fun st => (o, st).

Notation "'let!' x ':=' m 'in' k" := (bind m (fun x => k))
  (at level 10, x name, m at level 100, k at level 200, only parsing).
Notation "m ';;;' k" := (bind m (fun _ => k))
  (at level 100, k at level 200, right associativity, only parsing).

Definition emit (e : Event) : M unit :=
  fun st => (Returned tt, {| imageCache := imageCache st; trace := trace st ++ [e] |}).

(** [imageCache.has(k) ? imageCache.get(k) : undefined] *)
Definition cache_lookup (k : string) : M (option GetImageResult) :=
  fun st => (Returned (imageCache st !! k), st).

(** [imageCache.set(k, r)] *)
Definition cache_set (k : string) (r : GetImageResult) : M unit :=
  fun st =>
    (Returned tt,
     {| imageCache := <[k := r]> (imageCache st);
        trace := trace st ++ [EvCacheSet k r] |}).

Definition console_warn (msg : string) : M unit := emit (EvWarn msg).
Definition console_error (msg : string) (e : Exn) : M unit := emit (EvError msg e).

(** ** JavaScript operators used by the module *)

(** Truthiness of an optional number: [undefined] and [0] are falsy. *)
Definition truthy (n : option Z) : bool :=
  match n with
  | Some z => negb (z =? 0)
  | None => false
  end.

(** [n || d] for a number default. *)
Definition orNum (n : option Z) (d : Z) : Z :=
  match n with
  | Some z => if z =? 0 then d else z
  | None => d
  end.

(** [f || d] for a format default; every format name is a non-empty string. *)
Definition orFormat (f : option ImageFormat) (d : ImageFormat) : ImageFormat :=
  match f with
  | Some x => x
  | None => d
  end.

(** [`${n || 'auto'}`]; an integer is printed as its decimal numeral, which
    is what the code prints for an integer it holds exactly. *)
Definition numOrAuto (n : option Z) : string :=
  match n with
  | Some z => if z =? 0 then "auto" else pretty z
  | None => "auto"
  end.

(** [`${f || 'auto'}`] *)
Definition formatOrAuto (f : option ImageFormat) : string :=
  match f with
  | Some x => ImageFormat_toString x
  | None => "auto"
  end.

(** [s.startsWith(p)] *)
Definition startsWith (s p : string) : bool := String.prefix p s.

(** [!src] on a source slot: [undefined] and the empty string are falsy,
    every object is truthy. *)
Definition src_falsy (s : ImageSource) : bool :=
  match s with
  | SrcUndefined => true
  | SrcString "" => true
  | SrcString _ => false
  | SrcMetadata _ => false
  end.

(** ** The module *)

Definition emptySrcSet : SrcSet := {| values := []; attribute := "" |}.

(** Reading [.src] of [undefined]. *)
Definition undefinedSrcError : Exn :=
  TypeError "Cannot read properties of undefined (reading 'src')".

(** [typeof src === 'string' ? src : src.src] *)
Definition srcStr (s : ImageSource) : Outcome string :=
  match s with
  | SrcString str => Returned str
  | SrcMetadata m => Returned (meta_src m)
  | SrcUndefined => Threw undefinedSrcError
  end.

Definition getCacheKey (o : OptimizeImageOptions) : Outcome string :=
  match srcStr (src o) with
  | Returned s =>
      Returned (s +:+ "-" +:+ numOrAuto (width o) +:+ "-" +:+ numOrAuto (height o)
                  +:+ "-" +:+ formatOrAuto (format o) +:+ "-" +:+ numOrAuto (quality o))
  | Threw e => Threw e
  end.

(** The object literal of the remote and missing-dimension branches. *)
Definition passThrough (s : string) (w h : option Z) : GetImageResult :=
  let t := {| t_src := SrcString s;
              t_width := Some (orNum w 1200);
              t_height := Some (orNum h 630);
              t_format := None;
              t_quality := None |} in
  {| res_src := s;
     attributes := {| attr_width := Some (orNum w 1200);
                      attr_height := Some (orNum h 630) |};
     options := t;
     rawOptions := t;
     srcSet := emptySrcSet |}.

(** The object literal of the [catch] block of the path branch. *)
Definition pathFallback (s : string) (w h : option Z) : GetImageResult :=
  let t := {| t_src := SrcString s; t_width := w; t_height := h;
              t_format := None; t_quality := None |} in
  {| res_src := s;
     attributes := {| attr_width := w; attr_height := h |};
     options := t;
     rawOptions := t;
     srcSet := emptySrcSet |}.

(** The object literal of the [catch] block of the metadata branch. *)
Definition metadataFallback (m : ImageMetadata) (w h : option Z) : GetImageResult :=
  let t := {| t_src := SrcMetadata m;
              t_width := Some (orNum w (meta_width m));
              t_height := Some (orNum h (meta_height m));
              t_format := None;
              t_quality := None |} in
  {| res_src := meta_src m;
     attributes := {| attr_width := Some (orNum w (meta_width m));
                      attr_height := Some (orNum h (meta_height m)) |};
     options := t;
     rawOptions := t;
     srcSet := emptySrcSet |}.

(** The argument of both [getImage] calls. *)
Definition transformRequest (o : OptimizeImageOptions) : ImageTransform :=
  {| t_src := src o;
     t_width := width o;
     t_height := height o;
     t_format := Some (orFormat (format o) webp);
     t_quality := Some (orNum (quality o) 80) |}.

Definition warnMessage (s : string) : string :=
  "Image optimization: width and height are required for public/ folder images: " +:+ s.
Definition pathErrorMessage (s : string) : string :=
  "Error optimizing image " +:+ s +:+ ":".
Definition metadataErrorMessage : string := "Error optimizing image:".

Section WithCapability.

(** The transcoding capability: given what happened so far and a request,
    it returns a result or throws. *)
Variable getImage : list Event -> ImageTransform -> Exn + GetImageResult.

(** [await getImage(t)] *)
Definition call_getImage (t : ImageTransform) : M GetImageResult :=
  fun st =>
    let st' := {| imageCache := imageCache st; trace := trace st ++ [EvGetImage t] |} in
    match getImage (trace st) t with
    | inr r => (Returned r, st')
    | inl e => (Threw e, st')
    end.

Definition optimizeImage (o : OptimizeImageOptions) : M GetImageResult :=
  let! cacheKey := lift (getCacheKey o) in
  let! cached := cache_lookup cacheKey in
  match cached with
  | Some r => ret r
  | None =>
      match src o with
      | SrcString s =>
          if startsWith s "http://" || startsWith s "https://" then
            let result := passThrough s (width o) (height o) in
            cache_set cacheKey result;;;
            ret result
          else if negb (truthy (width o)) || negb (truthy (height o)) then
            console_warn (warnMessage s);;;
            let result := passThrough s (width o) (height o) in
            cache_set cacheKey result;;;
            ret result
          else
            try_catch
              (let! result := call_getImage (transformRequest o) in
               cache_set cacheKey result;;;
               ret result)
              (fun error =>
                 console_error (pathErrorMessage s) error;;;
                 let result := pathFallback s (width o) (height o) in
                 cache_set cacheKey result;;;
                 ret result)
      | SrcMetadata m =>
          try_catch
            (let! result := call_getImage (transformRequest o) in
             cache_set cacheKey result;;;
             ret result)
            (fun error =>
               console_error metadataErrorMessage error;;;
               let result := metadataFallback m (width o) (height o) in
               cache_set cacheKey result;;;
               ret result)
      | SrcUndefined =>
          (* not reached, getCacheKey has thrown; the code would take the
             metadata branch and fail on [metadata.src] in its handler *)
          try_catch
            (let! result := call_getImage (transformRequest o) in
             cache_set cacheKey result;;;
             ret result)
            (fun error =>
               console_error metadataErrorMessage error;;;
               throw undefinedSrcError)
      end
  end.

(** [options?.field] *)
Definition ov_get {A} (f : PresetOverrides -> option A)
    (ov : option PresetOverrides) : option A :=
  match ov with
  | Some x => f x
  | None => None
  end.

(** The object literal [getOptimizedHeroImage] passes on. *)
Definition heroOptions (s : ImageSource) (ov : option PresetOverrides) :
    OptimizeImageOptions :=
  {| src := s;
     width := Some (orNum (ov_get ov_width ov) 1200);
     height := Some (orNum (ov_get ov_height ov) 630);
     format := Some (orFormat (ov_get ov_format ov) webp);
     quality := Some (orNum (ov_get ov_quality ov) 80);
     alt := None |}.

(** The object literal [getOptimizedCardImage] passes on. *)
Definition cardOptions (s : ImageSource) (ov : option PresetOverrides) :
    OptimizeImageOptions :=
  {| src := s;
     width := Some (orNum (ov_get ov_width ov) 400);
     height := Some (orNum (ov_get ov_height ov) 225);
     format := Some (orFormat (ov_get ov_format ov) webp);
     quality := Some (orNum (ov_get ov_quality ov) 75);
     alt := None |}.

Definition getOptimizedHeroImage (s : ImageSource) (ov : option PresetOverrides) :
    M (option GetImageResult) :=
  if src_falsy s then ret None
  else
    let! r := optimizeImage (heroOptions s ov) in
    ret (Some r).

Definition getOptimizedCardImage (s : ImageSource) (ov : option PresetOverrides) :
    M (option GetImageResult) :=
  if src_falsy s then ret None
  else
    let! r := optimizeImage (cardOptions s ov) in
    ret (Some r).

(** [path: string | undefined]; [!path] holds for [undefined] and [""]. *)
Definition isValidImagePath (path : option string) : M bool :=
  match path with
  | None => ret false
  | Some "" => ret false
  | Some p =>
      if startsWith p "http://" || startsWith p "https://" then ret true
      else if startsWith p "/" then ret true
      else if startsWith p "./" || startsWith p "../" then ret true
      else ret false
  end.

End WithCapability.

(** ** Sequences of calls *)

(** One call of the module's interface, as a page template issues it. *)
Inductive Call : Type :=
| CallOptimize (o : OptimizeImageOptions)
| CallHero (s : ImageSource) (ov : option PresetOverrides)
| CallCard (s : ImageSource) (ov : option PresetOverrides)
| CallValid (path : option string).

Definition run_call (getImage : list Event -> ImageTransform -> Exn + GetImageResult)
    (st : State) (c : Call) : State :=
  match c with
  | CallOptimize o => (optimizeImage getImage o st).2
  | CallHero s ov => (getOptimizedHeroImage getImage s ov st).2
  | CallCard s ov => (getOptimizedCardImage getImage s ov st).2
  | CallValid p => (isValidImagePath p st).2
  end.

Definition run_calls (getImage : list Event -> ImageTransform -> Exn + GetImageResult)
    (cs : list Call) (st : State) : State :=
  fold_left (run_call getImage) cs st.

(** The events a call added, given the states before and after it. *)
Definition emitted (st st' : State) : list Event :=
  drop (length (trace st)) (trace st').

(** [s] starts with [p], stated by decomposition. *)
Definition has_prefix (p s : string) : Prop := exists rest, s = p +:+ rest.

(** The source is an absolute remote URL. *)
Definition remote_url (s : string) : Prop :=
  has_prefix "http://" s \/ has_prefix "https://" s.

(** The request is one the code hands to the capability when it misses
    the cache: a local path with both dimensions given, or an asset handle. *)
Definition routed_to_capability (o : OptimizeImageOptions) : Prop :=
  match src o with
  | SrcString s => ~ remote_url s /\ truthy (width o) = true /\ truthy (height o) = true
  | SrcMetadata _ => True
  | SrcUndefined => False
  end.

(** The intrinsic dimensions of an asset handle; a path has none. *)
Definition intrinsicWidth (s : ImageSource) : option Z :=
  match s with
  | SrcMetadata m => Some (meta_width m)
  | _ => None
  end.
Definition intrinsicHeight (s : ImageSource) : option Z :=
  match s with
  | SrcMetadata m => Some (meta_height m)
  | _ => None
  end.

(** Best-known dimension: the requested one, else the intrinsic one. *)
Definition bestKnown (requested intrinsic : option Z) : option Z :=
  if truthy requested then requested else intrinsic.

(** A numeric field as the cache key sees it: unset and [0] are both the
    placeholder. *)
Definition placeholder (n : option Z) : option Z :=
  if truthy n then n else None.

(** The parameters a request comes down to once the code's defaults are
    applied: the normalized source identifier, the dimensions, and the
    format and quality handed to the capability. *)
Definition effectiveParams (o : OptimizeImageOptions) :
    Outcome string * option Z * option Z * option ImageFormat * option Z :=
  (srcStr (src o), width o, height o,
   t_format (transformRequest o), t_quality (transformRequest o)).

(** ** What a key identifies *)

(** Two requests agree on everything the key is built from: the normalized
    source identifier, and width, height, format and quality with unset and
    zero read as the placeholder. *)
Definition same_key_params (o1 o2 : OptimizeImageOptions) : Prop :=
  srcStr (src o1) = srcStr (src o2)
  /\ placeholder (width o1) = placeholder (width o2)
  /\ placeholder (height o1) = placeholder (height o2)
  /\ format o1 = format o2
  /\ placeholder (quality o1) = placeholder (quality o2).

Fixpoint dash_free (s : string) : bool :=
  match s with
  | "" => true
  | String c s' => negb (Ascii.eqb c "-"%char) && dash_free s'
  end.

Definition is_digit (c : Ascii.ascii) : bool :=
  (Ascii.eqb c "0" || Ascii.eqb c "1" || Ascii.eqb c "2" || Ascii.eqb c "3"
   || Ascii.eqb c "4" || Ascii.eqb c "5" || Ascii.eqb c "6" || Ascii.eqb c "7"
   || Ascii.eqb c "8" || Ascii.eqb c "9")%char.

Fixpoint digits_only (s : string) : bool :=
  match s with
  | "" => true
  | String c s' => is_digit c && digits_only s'
  end.

(** An optional number that is unset or not negative. *)
Definition nonneg (n : option Z) : Prop :=
  match n with
  | Some z => 0 <= z
  | None => True
  end.

(** No numeric field of the request is negative. *)
Definition nonneg_fields (o : OptimizeImageOptions) : Prop :=
  nonneg (width o) /\ nonneg (height o) /\ nonneg (quality o).

(** ** Capabilities and requests used in the examples *)

Definition sampleTranscoded (t : ImageTransform) : GetImageResult :=
  {| res_src := "/_astro/out.webp";
     attributes := {| attr_width := t_width t; attr_height := t_height t |};
     options := t;
     rawOptions := t;
     srcSet := {| values := [ {| ssv_url := "/_astro/out-2x.webp"; ssv_descriptor := "2x" |} ];
                  attribute := "/_astro/out-2x.webp 2x" |} |}.

(** A capability that always succeeds. *)
Definition workingCapability : list Event -> ImageTransform -> Exn + GetImageResult :=
  fun _ t => inr (sampleTranscoded t).

(** A capability that always throws. *)
Definition failingCapability : list Event -> ImageTransform -> Exn + GetImageResult :=
  fun _ _ => inl (CapabilityError "transform failed").

Definition request (s : string) (w h : option Z) : OptimizeImageOptions :=
  {| src := SrcString s; width := w; height := h;
     format := None; quality := None; alt := None |}.

Definition localNoDims : OptimizeImageOptions := request "/local.png" None None.
Definition localWithDims : OptimizeImageOptions := request "/local.png" (Some 400) (Some 225).
Definition remoteRequest : OptimizeImageOptions := request "https://example.com/x.jpg" None None.
Definition directRequest : OptimizeImageOptions := request "/a.png" (Some 400) (Some 225).

(** An asset handle whose [src] is an absolute URL. *)
Definition remoteAsset : ImageMetadata :=
  {| meta_src := "https://example.com/x.jpg";
     meta_width := 800; meta_height := 600; meta_format := "jpg" |}.
(** [directRequest] with the quality spelled out as [0]. *)
Definition zeroQualityRequest : OptimizeImageOptions :=
  {| src := SrcString "/a.png"; width := Some 400; height := Some 225;
     format := None; quality := Some 0; alt := Some "a picture" |}.

(** The state after [localWithDims] has been requested once from a
    capability that throws. *)
Definition stateAfterFailure : State :=
  run_calls failingCapability [CallOptimize localWithDims] initialState.

Definition heroOverrides : option PresetOverrides :=
  Some {| ov_width := Some 400; ov_height := Some 225;
          ov_format := None; ov_quality := None |}.
Definition cardOverrides : option PresetOverrides :=
  Some {| ov_width := None; ov_height := None;
          ov_format := None; ov_quality := Some 80 |}.

(** ** Bookkeeping of the cache *)

(** The cache holds exactly what the trace says was stored, every key was
    stored once, and the capability and the error log were used no more often
    than entries were stored. *)
Definition cache_consistent (st : State) : Prop :=
  (forall k r, imageCache st !! k = Some r <-> In (EvCacheSet k r) (trace st))
  /\ count_events is_cacheSet (trace st) = size (imageCache st)
  /\ (count_events is_error (trace st) <= count_events is_getImage (trace st))%nat
  /\ (count_events is_getImage (trace st) <= count_events is_cacheSet (trace st))%nat.

(** A result the module made up itself, as opposed to one the capability
    returned: no source-set, the request echoed twice, and the dimensions of
    the attributes those of the echo. *)
Definition synthesized (r : GetImageResult) : Prop :=
  srcSet r = emptySrcSet
  /\ rawOptions r = options r
  /\ attr_width (attributes r) = t_width (options r)
  /\ attr_height (attributes r) = t_height (options r)
  /\ t_format (options r) = None
  /\ t_quality (options r) = None.

(** No numeric override is negative. *)
Definition nonneg_overrides (ov : option PresetOverrides) : Prop :=
  nonneg (ov_get ov_width ov) /\ nonneg (ov_get ov_height ov)
  /\ nonneg (ov_get ov_quality ov).

(** ** The RSS feeds *)

(** What the feeds read of a blog entry's front matter.  [pubDate] is the
    time value of the Date ([new Date(d).valueOf()]), in milliseconds. *)
Record BlogData : Type := mkBlogData {
  title : string;
  description : string;
  pubDate : Z;
  tags : option (list string);
  draft : option bool
}.

Record CollectionEntry : Type := mkEntry {
  slug : string;
  data : BlogData
}.

Record RSSFeedItem : Type := mkFeedItem {
  item_title : string;
  item_pubDate : Z;
  item_description : string;
  link : string;
  categories : list string
}.

(** The object handed to [rss]. *)
Record RSSOptions : Type := mkRSSOptions {
  rss_title : string;
  rss_description : string;
  rss_site : option string;
  items : list RSSFeedItem
}.

Record APIContext : Type := mkContext {
  site : option string
}.

(** [arr.sort(compareFn)]: the language makes the sort stable.  With a
    comparator that orders the elements consistently the outcome is fixed:
    the elements in ascending order of [compareFn], those that compare equal
    in their original order.  It is computed here by insertion. *)
Fixpoint sort_insert {A : Type} (compareFn : A -> A -> Z) (x : A) (sorted : list A) :
    list A :=
  match sorted with
  | [] => [x]
  | y :: rest =>
      if compareFn x y <=? 0 then x :: y :: rest
      else y :: sort_insert compareFn x rest
  end.

Definition Array_sort {A : Type} (compareFn : A -> A -> Z) (arr : list A) : list A :=
  foldr (sort_insert compareFn) [] arr.

(** [(a, b) => new Date(b.data.pubDate).valueOf() - new Date(a.data.pubDate).valueOf()] *)
Definition compareByDate (a b : CollectionEntry) : Z :=
  pubDate (data b) - pubDate (data a).

(** [({ data }) => !data.draft] *)
Definition notDraft (entry : CollectionEntry) : bool :=
  match draft (data entry) with
  | Some true => false
  | _ => true
  end.

(** The callback of [sortedPosts.map]. *)
Definition toItem (post : CollectionEntry) : RSSFeedItem :=
  {| item_title := title (data post);
     item_pubDate := pubDate (data post);
     item_description := description (data post);
     link := "/blog/" +:+ slug post +:+ "/";
     categories := match tags (data post) with
                   | Some ts => ts
                   | None => []
                   end |}.

(** What both handlers do with the posts they fetched: sort them and build
    the argument of [rss]. *)
Definition feedOptions (SITE_TITLE SITE_DESCRIPTION : string)
    (context : APIContext) (posts : list CollectionEntry) : RSSOptions :=
  let sortedPosts := Array_sort compareByDate posts in
  {| rss_title := SITE_TITLE;
     rss_description := SITE_DESCRIPTION;
     rss_site := site context;
     items := map toItem sortedPosts |}.

(** The handler that filters out drafts.  [getCollection] and [rss] are the
    framework's; [getCollection filter] stands for
    [getCollection('blog', filter)]. *)
Module FeedWithoutDrafts.
Definition GET {Response : Type}
    (rss : RSSOptions -> Response)
    (getCollection : option (CollectionEntry -> bool) -> list CollectionEntry)
    (SITE_TITLE SITE_DESCRIPTION : string)
    (context : APIContext) : Response :=
  let posts := getCollection (Some notDraft) in
  rss (feedOptions SITE_TITLE SITE_DESCRIPTION context posts).
End FeedWithoutDrafts.

(** The handler that publishes every entry. *)
Module FeedAll.
Definition GET {Response : Type}
    (rss : RSSOptions -> Response)
    (getCollection : option (CollectionEntry -> bool) -> list CollectionEntry)
    (SITE_TITLE SITE_DESCRIPTION : string)
    (context : APIContext) : Response :=
  let posts := getCollection None in
  rss (feedOptions SITE_TITLE SITE_DESCRIPTION context posts).
End FeedAll.

(** Newest first: an item is never older than one after it. *)
Definition newest_first (l : list RSSFeedItem) : Prop :=
  StronglySorted (fun a b => item_pubDate b <= item_pubDate a) l.

(** The items published on a given date, in feed order. *)
Definition items_of_date (t : Z) (l : list RSSFeedItem) : list RSSFeedItem :=
  List.filter (fun i => item_pubDate i =? t) l.

(** The posts of a given date, in collection order. *)
Definition posts_of_date (t : Z) (l : list CollectionEntry) : list CollectionEntry :=
  List.filter (fun p => pubDate (data p) =? t) l.

(** The contract of [getCollection]: with a filter it returns the entries of
    the collection that pass it, in the collection's order. *)
Definition filters_collection
    (getCollection : option (CollectionEntry -> bool) -> list CollectionEntry) : Prop :=
  forall f, getCollection (Some f) = List.filter f (getCollection None).

(** A small collection: two posts of the same day, an older draft. *)
Definition samplePosts : list CollectionEntry :=
  [ {| slug := "iot-architecture";
       data := {| title := "IoT data at scale"; description := "An architecture";
                  pubDate := 1759795200000; tags := Some ["iot"; "kafka"];
                  draft := None |} |};
    {| slug := "old-draft";
       data := {| title := "Unfinished"; description := "Not yet";
                  pubDate := 1700000000000; tags := None; draft := Some true |} |};
    {| slug := "second-post";
       data := {| title := "Second"; description := "Same day";
                  pubDate := 1759795200000; tags := None; draft := Some false |} |};
    {| slug := "newest";
       data := {| title := "Newest"; description := "Latest";
                  pubDate := 1760000000000; tags := Some []; draft := None |} |} ].

Definition sampleCollection (f : option (CollectionEntry -> bool)) :
    list CollectionEntry :=
  match f with
  | Some p => List.filter p samplePosts
  | None => samplePosts
  end.

(** [samplePosts] arranged newest first, same-day posts in collection order. *)
Definition arrangedSample : list CollectionEntry :=
  match samplePosts with
  | [a; b; c; d] => [d; a; c; b]
  | _ => []
  end.

(** A request without a source. *)
Definition noSourceRequest : OptimizeImageOptions :=
  {| src := SrcUndefined; width := Some 400; height := Some 225;
     format := None; quality := None; alt := None |}.

(** ** Basic facts *)

Lemma startsWith_has_prefix (p s : string) :
  startsWith s p = true <-> has_prefix p s.
Proof.
  unfold startsWith, has_prefix. revert s.
  induction p as [|c p IH]; intros s; destruct s as [|d s]; simpl.
  - split; [intros _; by exists "" | reflexivity].
  - split; [intros _; by exists (String d s) | reflexivity].
  - split; [discriminate | intros [rest H]; discriminate].
  - destruct (Ascii.ascii_dec c d) as [->|Hne].
    + rewrite IH. split; intros [rest H]; exists rest.
      * simpl. by rewrite H.
      * simpl in H. by injection H.
    + split; [discriminate | intros [rest H]; simpl in H; injection H as Hd _; congruence].
Qed.

Lemma remote_url_iff (s : string) :
  startsWith s "http://" || startsWith s "https://" = true <-> remote_url s.
Proof.
  unfold remote_url. rewrite orb_true_iff, !startsWith_has_prefix. tauto.
Qed.

Lemma emitted_app (c : gmap string GetImageResult) (st : State) (evs : list Event) :
  emitted st {| imageCache := c; trace := trace st ++ evs |} = evs.
Proof. unfold emitted. simpl. by rewrite drop_app_length. Qed.

Lemma emitted_refl (st : State) : emitted st st = [].
Proof. unfold emitted. apply drop_all. Qed.

Lemma getCacheKey_present (o : OptimizeImageOptions) :
  src o <> SrcUndefined -> exists k, getCacheKey o = Returned k.
Proof.
  unfold getCacheKey. destruct (src o); simpl; [congruence | eauto | eauto].
Qed.

Lemma getCacheKey_returned (o : OptimizeImageOptions) (k : string) :
  getCacheKey o = Returned k -> src o <> SrcUndefined.
Proof. unfold getCacheKey. destruct (src o); simpl; congruence. Qed.

(** ** Keys are read back from the right *)

Lemma append_assoc (a b c : string) : (a +:+ b) +:+ c = a +:+ (b +:+ c).
Proof.
  induction a as [|x a IH]; [done|].
  change (String x ((a +:+ b) +:+ c) = String x (a +:+ (b +:+ c))). by rewrite IH.
Qed.

Lemma digits_only_dash_free (s : string) : digits_only s = true -> dash_free s = true.
Proof.
  induction s as [|c s IH]; simpl; [done|].
  intros [Hc Hs]%andb_true_iff. rewrite (IH Hs), andb_true_r.
  destruct (Ascii.eqb_spec c "-"%char) as [->|]; [discriminate Hc|done].
Qed.

Lemma pretty_N_char_digit (x : N) : is_digit (pretty_N_char x) = true.
Proof. unfold pretty_N_char. by repeat case_match. Qed.

Lemma pretty_N_go_digits (x : N) (s : string) :
  digits_only s = true -> digits_only (pretty_N_go x s) = true.
Proof.
  revert s. induction (N.lt_wf_0 x) as [x _ IH]; intros s Hs.
  assert (x = 0 \/ 0 < x)%N as [->|Hpos] by lia.
  - by rewrite pretty_N_go_0.
  - rewrite pretty_N_go_step by done. apply IH.
    + by apply N.div_lt.
    + simpl. by rewrite pretty_N_char_digit, Hs.
Qed.

Lemma pretty_pos_digits (p : positive) : digits_only (pretty (Z.pos p)) = true.
Proof.
  change (pretty (Z.pos p)) with (pretty (N.pos p)).
  unfold pretty, pretty_N. case_decide; [done|]. by apply pretty_N_go_digits.
Qed.

Lemma pretty_not_auto (z : Z) : z <> 0 -> pretty z <> "auto".
Proof.
  intros Hz Heq. destruct z as [|p|p]; [done| |].
  - pose proof (pretty_pos_digits p) as Hd. by rewrite Heq in Hd.
  - discriminate Heq.
Qed.

Lemma numOrAuto_inj (a b : option Z) :
  numOrAuto a = numOrAuto b -> placeholder a = placeholder b.
Proof.
  unfold numOrAuto, placeholder, truthy.
  destruct a as [x|], b as [y|]; simpl;
    repeat match goal with
           | |- context [?z =? 0] => destruct (Z.eqb_spec z 0)
           end; simpl; intros H; try done;
    first [ by apply (inj pretty) in H as ->
          | by apply pretty_not_auto in H
          | symmetry in H; by apply pretty_not_auto in H ].
Qed.

Lemma numOrAuto_dash_free (a : option Z) : nonneg a -> dash_free (numOrAuto a) = true.
Proof.
  unfold numOrAuto. destruct a as [[|p|p]|]; simpl; try done.
  intros _. apply digits_only_dash_free, pretty_pos_digits.
Qed.

Lemma formatOrAuto_dash_free (f : option ImageFormat) : dash_free (formatOrAuto f) = true.
Proof. by destruct f as [[]|]. Qed.

Lemma formatOrAuto_inj (f g : option ImageFormat) :
  formatOrAuto f = formatOrAuto g -> f = g.
Proof. by destruct f as [[]|], g as [[]|]. Qed.

(** A string is split at its last dash in one way only. *)
Lemma last_dash_split (a b x y : string) :
  dash_free x = true -> dash_free y = true ->
  a +:+ "-" +:+ x = b +:+ "-" +:+ y -> a = b /\ x = y.
Proof.
  intros Hx Hy. revert b.
  assert (forall u v, dash_free (u +:+ "-" +:+ v) = false) as Hdash.
  { intros u v. induction u as [|c u IH]; [done|].
    change (negb (Ascii.eqb c "-"%char) && dash_free (u +:+ "-" +:+ v) = false).
    by rewrite IH, andb_false_r. }
  induction a as [|c a IH]; intros [|d b] Heq.
  - by injection Heq.
  - change (String "-"%char x = String d (b +:+ "-" +:+ y)) in Heq.
    injection Heq as _ Heq. rewrite Heq, Hdash in Hx. discriminate Hx.
  - change (String c (a +:+ "-" +:+ x) = String "-"%char y) in Heq.
    injection Heq as _ Heq. rewrite <- Heq, Hdash in Hy. discriminate Hy.
  - change (String c (a +:+ "-" +:+ x) = String d (b +:+ "-" +:+ y)) in Heq.
    injection Heq as -> Heq. destruct (IH b Heq) as [-> ->]. done.
Qed.

(** In the embedding, where every number is an integer printed as its
    decimal numeral, the key of a request without negative numbers
    determines everything it is built from. *)
Lemma getCacheKey_inj (o1 o2 : OptimizeImageOptions) (k : string) :
  nonneg_fields o1 -> nonneg_fields o2 ->
  getCacheKey o1 = Returned k ->
  getCacheKey o2 = Returned k ->
  same_key_params o1 o2.
Proof.
  intros (Hw1 & Hh1 & Hq1) (Hw2 & Hh2 & Hq2). unfold getCacheKey, same_key_params.
  destruct (srcStr (src o1)) as [s1|] eqn:E1; [|done].
  destruct (srcStr (src o2)) as [s2|] eqn:E2; [|done].
  intros [= <-] [= Heq].
  assert (forall a b c : string, a +:+ "-" +:+ b +:+ "-" +:+ c
                                 = (a +:+ "-" +:+ b) +:+ "-" +:+ c) as Hsplit.
  { intros a b c. by rewrite !append_assoc. }
  rewrite !(Hsplit _ _ (numOrAuto (quality _))) in Heq.
  apply last_dash_split in Heq as [Heq Hq]; [|by apply numOrAuto_dash_free..].
  rewrite !(Hsplit _ _ (formatOrAuto _)) in Heq.
  apply last_dash_split in Heq as [Heq Hf]; [|by apply formatOrAuto_dash_free..].
  rewrite !(Hsplit _ _ (numOrAuto (height _))) in Heq.
  apply last_dash_split in Heq as [Heq Hh]; [|by apply numOrAuto_dash_free..].
  apply last_dash_split in Heq as [Heq Hw]; [|by apply numOrAuto_dash_free..].
  subst s2. split; [done|].
  split; [by apply numOrAuto_inj|]. split; [by apply numOrAuto_inj|].
  split; [by apply formatOrAuto_inj|by apply numOrAuto_inj].
Qed.

(** ** The branches of [optimizeImage], one equation each *)

Ltac run_module :=
  unfold optimizeImage, getOptimizedHeroImage, getOptimizedCardImage,
    try_catch, bind, lift, ret, throw, cache_lookup, cache_set,
    console_warn, console_error, emit, call_getImage; simpl.

Section Branches.

Variable getImage : list Event -> ImageTransform -> Exn + GetImageResult.
Variables (o : OptimizeImageOptions) (k : string) (st : State).
Hypothesis Hkey : getCacheKey o = Returned k.

Lemma optimizeImage_hit (r : GetImageResult) :
  imageCache st !! k = Some r ->
  optimizeImage getImage o st = (Returned r, st).
Proof. intros Hhit. run_module. by rewrite Hkey, Hhit. Qed.

Hypothesis Hmiss : imageCache st !! k = None.

Lemma optimizeImage_remote (s : string) :
  src o = SrcString s ->
  startsWith s "http://" || startsWith s "https://" = true ->
  let r := passThrough s (width o) (height o) in
  optimizeImage getImage o st =
    (Returned r,
     {| imageCache := <[k := r]> (imageCache st);
        trace := trace st ++ [EvCacheSet k r] |}).
Proof. intros Hs Hr. run_module. by rewrite Hkey, Hmiss, Hs, Hr. Qed.

Lemma optimizeImage_missing_dimensions (s : string) :
  src o = SrcString s ->
  startsWith s "http://" || startsWith s "https://" = false ->
  negb (truthy (width o)) || negb (truthy (height o)) = true ->
  let r := passThrough s (width o) (height o) in
  optimizeImage getImage o st =
    (Returned r,
     {| imageCache := <[k := r]> (imageCache st);
        trace := trace st ++ [EvWarn (warnMessage s); EvCacheSet k r] |}).
Proof.
  intros Hs Hr Hd. run_module. rewrite Hkey, Hmiss, Hs, Hr, Hd.
  by rewrite <- app_assoc.
Qed.

Lemma optimizeImage_path_transcoded (s : string) (r : GetImageResult) :
  src o = SrcString s ->
  startsWith s "http://" || startsWith s "https://" = false ->
  negb (truthy (width o)) || negb (truthy (height o)) = false ->
  getImage (trace st) (transformRequest o) = inr r ->
  optimizeImage getImage o st =
    (Returned r,
     {| imageCache := <[k := r]> (imageCache st);
        trace := trace st ++ [EvGetImage (transformRequest o); EvCacheSet k r] |}).
Proof.
  intros Hs Hr Hd Hg. run_module. rewrite Hkey, Hmiss, Hs, Hr, Hd, Hg. simpl.
  by rewrite <- app_assoc.
Qed.

Lemma optimizeImage_path_failed (s : string) (e : Exn) :
  src o = SrcString s ->
  startsWith s "http://" || startsWith s "https://" = false ->
  negb (truthy (width o)) || negb (truthy (height o)) = false ->
  getImage (trace st) (transformRequest o) = inl e ->
  let r := pathFallback s (width o) (height o) in
  optimizeImage getImage o st =
    (Returned r,
     {| imageCache := <[k := r]> (imageCache st);
        trace := trace st ++ [EvGetImage (transformRequest o);
                              EvError (pathErrorMessage s) e;
                              EvCacheSet k r] |}).
Proof.
  intros Hs Hr Hd Hg. run_module. rewrite Hkey, Hmiss, Hs, Hr, Hd, Hg. simpl.
  by rewrite <- !app_assoc.
Qed.

Lemma optimizeImage_metadata_transcoded (m : ImageMetadata) (r : GetImageResult) :
  src o = SrcMetadata m ->
  getImage (trace st) (transformRequest o) = inr r ->
  optimizeImage getImage o st =
    (Returned r,
     {| imageCache := <[k := r]> (imageCache st);
        trace := trace st ++ [EvGetImage (transformRequest o); EvCacheSet k r] |}).
Proof.
  intros Hs Hg. run_module. rewrite Hkey, Hmiss, Hs, Hg. simpl.
  by rewrite <- app_assoc.
Qed.

Lemma optimizeImage_metadata_failed (m : ImageMetadata) (e : Exn) :
  src o = SrcMetadata m ->
  getImage (trace st) (transformRequest o) = inl e ->
  let r := metadataFallback m (width o) (height o) in
  optimizeImage getImage o st =
    (Returned r,
     {| imageCache := <[k := r]> (imageCache st);
        trace := trace st ++ [EvGetImage (transformRequest o);
                              EvError metadataErrorMessage e;
                              EvCacheSet k r] |}).
Proof.
  intros Hs Hg. run_module. rewrite Hkey, Hmiss, Hs, Hg. simpl.
  by rewrite <- !app_assoc.
Qed.

(** Every miss ends in one [imageCache.set] of the returned result under
    the request's key. *)
Lemma optimizeImage_miss :
  exists r evs,
    optimizeImage getImage o st =
      (Returned r,
       {| imageCache := <[k := r]> (imageCache st); trace := trace st ++ evs |})
    /\ List.filter is_cacheSet evs = [EvCacheSet k r].
Proof.
  destruct (src o) as [|s|m] eqn:Hs.
  - by apply getCacheKey_returned in Hkey.
  - destruct (startsWith s "http://" || startsWith s "https://") eqn:Hr.
    { eexists _, _. split; [by apply optimizeImage_remote|done]. }
    destruct (negb (truthy (width o)) || negb (truthy (height o))) eqn:Hd.
    { eexists _, _. split; [by apply optimizeImage_missing_dimensions|done]. }
    destruct (getImage (trace st) (transformRequest o)) as [e|r] eqn:Hg.
    + eexists _, _. split; [by eapply optimizeImage_path_failed|done].
    + eexists _, _. split; [by eapply optimizeImage_path_transcoded|done].
  - destruct (getImage (trace st) (transformRequest o)) as [e|r] eqn:Hg.
    + eexists _, _. split; [by eapply optimizeImage_metadata_failed|done].
    + eexists _, _. split; [by eapply optimizeImage_metadata_transcoded|done].
Qed.

End Branches.

(** ** What any call does to the state *)

Section Frame.

Variable getImage : list Event -> ImageTransform -> Exn + GetImageResult.

Lemma optimizeImage_absent_source (o : OptimizeImageOptions) (st : State) :
  src o = SrcUndefined ->
  optimizeImage getImage o st = (Threw undefinedSrcError, st).
Proof. intros Hs. run_module. unfold getCacheKey. by rewrite Hs. Qed.

(** A call of [optimizeImage] either leaves the state as it is (hit, or
    no source), or is a miss that inserts its result under its key. *)
Lemma optimizeImage_cases (o : OptimizeImageOptions) (st : State) :
  (exists out, optimizeImage getImage o st = (out, st))
  \/ (exists k r evs,
        getCacheKey o = Returned k
        /\ imageCache st !! k = None
        /\ optimizeImage getImage o st =
             (Returned r,
              {| imageCache := <[k := r]> (imageCache st);
                 trace := trace st ++ evs |})
        /\ List.filter is_cacheSet evs = [EvCacheSet k r]).
Proof.
  destruct (src o) as [|s|m] eqn:Hs.
  { left. eexists. by apply optimizeImage_absent_source. }
  all: destruct (getCacheKey_present o) as [k Hk]; [congruence|].
  all: destruct (imageCache st !! k) as [r|] eqn:Hc.
  all: try (left; eexists; by eapply optimizeImage_hit).
  all: right; destruct (optimizeImage_miss getImage o k st Hk Hc) as (r & evs & ? & ?).
  all: by exists k, r, evs.
Qed.

Lemma optimizeImage_keeps_entries (o : OptimizeImageOptions) (st : State)
    (k : string) (r : GetImageResult) :
  imageCache st !! k = Some r ->
  imageCache (optimizeImage getImage o st).2 !! k = Some r.
Proof.
  intros Hk.
  destruct (optimizeImage_cases o st) as [[out ->]|(k' & r' & evs & _ & Hnone & -> & _)].
  - done.
  - simpl. rewrite lookup_insert_ne; [done|]. intros ->. congruence.
Qed.

Lemma wrapper_state (s : ImageSource) (o : OptimizeImageOptions) (st : State) :
  (bind (optimizeImage getImage o) (fun r => ret (Some r)) st).2
  = (optimizeImage getImage o st).2.
Proof. unfold bind, ret. by destruct (optimizeImage getImage o st) as [[r|e] st']. Qed.

Lemma run_call_keeps_entries (c : Call) (st : State)
    (k : string) (r : GetImageResult) :
  imageCache st !! k = Some r ->
  imageCache (run_call getImage st c) !! k = Some r.
Proof.
  intros Hk. destruct c as [o|s ov|s ov|p]; simpl.
  - by apply optimizeImage_keeps_entries.
  - unfold getOptimizedHeroImage. destruct (src_falsy s); [done|].
    rewrite (wrapper_state s). by apply optimizeImage_keeps_entries.
  - unfold getOptimizedCardImage. destruct (src_falsy s); [done|].
    rewrite (wrapper_state s). by apply optimizeImage_keeps_entries.
  - unfold isValidImagePath.
    destruct p as [[|a p]|]; [done| |done].
    by repeat match goal with |- context [if ?b then _ else _] => destruct b end.
Qed.

Lemma run_calls_keep_entries (cs : list Call) (st : State)
    (k : string) (r : GetImageResult) :
  imageCache st !! k = Some r ->
  imageCache (run_calls getImage cs st) !! k = Some r.
Proof.
  revert st. induction cs as [|c cs IH]; intros st Hk; [done|].
  simpl. apply IH. by apply run_call_keeps_entries.
Qed.

End Frame.

(** ** Memoization *)

(** C2. Once the cache holds an entry for the key of a request, a call with
    that request returns the stored result and leaves the whole state as it
    was: no cache write, no call of the transcoding capability, nothing
    logged.  The entry also survives every later sequence of calls of the
    module, whatever they request, so the same holds for the rest of the
    build. *)
Theorem optimizeImage_memoized
    (getImage : list Event -> ImageTransform -> Exn + GetImageResult)
    (o : OptimizeImageOptions) (k : string) (r : GetImageResult) (st : State) :
  getCacheKey o = Returned k ->
  imageCache st !! k = Some r ->
  optimizeImage getImage o st = (Returned r, st)
  /\ emitted st (optimizeImage getImage o st).2 = []
  /\ forall cs : list Call,
       let st' := run_calls getImage cs st in
       imageCache st' !! k = Some r
       /\ optimizeImage getImage o st' = (Returned r, st').
Proof.
  intros Hk Hc. split; [|split].
  - by apply optimizeImage_hit with k.
  - rewrite (optimizeImage_hit getImage o k st Hk r Hc). apply emitted_refl.
  - intros cs st'.
    assert (imageCache st' !! k = Some r) as Hc'
      by (by apply run_calls_keep_entries).
    split; [done|]. by apply optimizeImage_hit with k.
Qed.

(** ** Failures stay inside *)

(** C3. With a source present, [optimizeImage] returns a result in every
    state and for every behaviour of the capability: it never throws.  The
    two wrappers return for every source slot, and their answer is [null]
    exactly when the source is missing (falsy). *)
Theorem optimizeImage_never_throws
    (getImage : list Event -> ImageTransform -> Exn + GetImageResult)
    (o : OptimizeImageOptions) (st : State) :
  src o <> SrcUndefined ->
  (exists r st', optimizeImage getImage o st = (Returned r, st'))
  /\ (forall s ov, exists x st',
        getOptimizedHeroImage getImage s ov st = (Returned x, st')
        /\ (x = None <-> src_falsy s = true))
  /\ (forall s ov, exists x st',
        getOptimizedCardImage getImage s ov st = (Returned x, st')
        /\ (x = None <-> src_falsy s = true)).
Proof.
  intros Hsrc.
  assert (forall o', src o' <> SrcUndefined ->
            exists r st', optimizeImage getImage o' st = (Returned r, st')) as Hopt.
  { intros o' Ho'.
    destruct (optimizeImage_cases getImage o' st)
      as [[out Hout]|(k & r & evs & _ & _ & Hrun & _)]; [|eauto].
    destruct (getCacheKey_present o' Ho') as [k Hk].
    destruct (imageCache st !! k) as [r|] eqn:Hc.
    - exists r, st. by apply optimizeImage_hit with k.
    - destruct (optimizeImage_miss getImage o' k st Hk Hc) as (r & evs & Hrun & _).
      eauto. }
  split; [by apply Hopt|].
  split; intros s ov.
  - unfold getOptimizedHeroImage. destruct (src_falsy s) eqn:Hf.
    + exists None, st. by split.
    + destruct (Hopt (heroOptions s ov)) as (r & st' & Hrun).
      { simpl. intros ->. discriminate. }
      exists (Some r), st'. unfold bind, ret. rewrite Hrun. split; [done|].
      split; discriminate.
  - unfold getOptimizedCardImage. destruct (src_falsy s) eqn:Hf.
    + exists None, st. by split.
    + destruct (Hopt (cardOptions s ov)) as (r & st' & Hrun).
      { simpl. intros ->. discriminate. }
      exists (Some r), st'. unfold bind, ret. rewrite Hrun. split; [done|].
      split; discriminate.
Qed.

(** ** One insertion per miss *)

(** C7, as amended.  With a source present, [optimizeImage] returns a result
    [r]; afterwards the cache maps the request's key to [r] and every other
    key is as before.  A call that misses the cache performs exactly one
    [imageCache.set], of [r] under that key; a call that hits performs none
    and leaves the state unchanged. *)
Theorem optimizeImage_insertion
    (getImage : list Event -> ImageTransform -> Exn + GetImageResult)
    (o : OptimizeImageOptions) (st : State) :
  src o <> SrcUndefined ->
  exists k r st',
    getCacheKey o = Returned k
    /\ optimizeImage getImage o st = (Returned r, st')
    /\ imageCache st' !! k = Some r
    /\ (forall k', k' <> k -> imageCache st' !! k' = imageCache st !! k')
    /\ match imageCache st !! k with
       | None =>
           List.filter is_cacheSet (emitted st st') = [EvCacheSet k r]
           /\ count_events is_cacheSet (emitted st st') = 1%nat
       | Some r0 =>
           r = r0 /\ st' = st
           /\ count_events is_cacheSet (emitted st st') = 0%nat
       end.
Proof.
  intros Hsrc. destruct (getCacheKey_present o Hsrc) as [k Hk].
  destruct (imageCache st !! k) as [r0|] eqn:Hc.
  - exists k, r0, st. rewrite Hc.
    split; [done|]. split; [by apply optimizeImage_hit with k|].
    split; [done|]. split; [done|]. by rewrite emitted_refl.
  - destruct (optimizeImage_miss getImage o k st Hk Hc) as (r & evs & Hrun & Hsets).
    exists k, r, {| imageCache := <[k := r]> (imageCache st); trace := trace st ++ evs |}.
    rewrite Hc. split; [done|]. split; [exact Hrun|].
    simpl. split; [apply lookup_insert_eq|].
    split; [intros k' Hne; by apply lookup_insert_ne|].
    rewrite emitted_app. unfold count_events. by rewrite Hsets.
Qed.

(** ** The wrappers without a source *)

(** C8. Called with an absent source, both wrappers return [null] and leave
    the state untouched: no request is made, the capability is not called,
    the cache gets no entry. *)
Theorem wrappers_absent_source
    (getImage : list Event -> ImageTransform -> Exn + GetImageResult)
    (ov ov' : option PresetOverrides) (st : State) :
  getOptimizedHeroImage getImage SrcUndefined ov st = (Returned None, st)
  /\ getOptimizedCardImage getImage SrcUndefined ov' st = (Returned None, st)
  /\ emitted st (getOptimizedHeroImage getImage SrcUndefined ov st).2 = []
  /\ emitted st (getOptimizedCardImage getImage SrcUndefined ov' st).2 = []
  /\ imageCache (getOptimizedHeroImage getImage SrcUndefined ov st).2 = imageCache st
  /\ imageCache (getOptimizedCardImage getImage SrcUndefined ov' st).2 = imageCache st.
Proof.
  unfold getOptimizedHeroImage, getOptimizedCardImage, ret. simpl.
  rewrite emitted_refl. by repeat split.
Qed.

(** ** Path validation *)

(** C9. [isValidImagePath] answers [true] exactly for a path that starts
    with [http://], [https://], [/], [./] or [../]; every other input,
    absent input included, gives [false].  The state is never touched. *)
Theorem isValidImagePath_spec (path : option string) (st : State) :
  exists b : bool,
    isValidImagePath path st = (Returned b, st)
    /\ (b = true <->
        exists p, path = Some p
          /\ (has_prefix "http://" p \/ has_prefix "https://" p
              \/ has_prefix "/" p \/ has_prefix "./" p \/ has_prefix "../" p)).
Proof.
  destruct path as [p|].
  2:{ exists false. split; [done|]. split; [done|]. by intros (p & ? & _). }
  assert (exists b, isValidImagePath (Some p) st = (Returned b, st)
            /\ b = (startsWith p "http://" || startsWith p "https://"
                    || startsWith p "/"
                    || startsWith p "./" || startsWith p "../")) as (b & Hrun & Hb).
  { destruct p as [|a p]; [by exists false|].
    unfold isValidImagePath, ret.
    destruct (startsWith (String a p) "http://"), (startsWith (String a p) "https://"),
      (startsWith (String a p) "/"), (startsWith (String a p) "./"),
      (startsWith (String a p) "../"); simpl; eauto. }
  exists b. split; [done|]. rewrite Hb, !orb_true_iff, !startsWith_has_prefix.
  split.
  - intros H. exists p. split; [done|]. tauto.
  - intros (p' & [= <-] & H). tauto.
Qed.

(** ** The [alt] field *)

(** C10. Two requests that differ in nothing but [alt] have the same cache
    key, and [optimizeImage] behaves identically on them in every state:
    same outcome, same cache, same trace. *)
Theorem alt_is_ignored
    (getImage : list Event -> ImageTransform -> Exn + GetImageResult)
    (s : ImageSource) (w h : option Z) (f : option ImageFormat) (q : option Z)
    (alt1 alt2 : option string) (st : State) :
  getCacheKey (mkOptions s w h f q alt1) = getCacheKey (mkOptions s w h f q alt2)
  /\ optimizeImage getImage (mkOptions s w h f q alt1) st
     = optimizeImage getImage (mkOptions s w h f q alt2) st.
Proof. split; reflexivity. Qed.

(** ** Missing dimensions *)

(** C4, as amended.  A request for a local path (a string that is no
    [http://] or [https://] URL) that lacks width and height, made when its
    key is not in the cache, logs exactly one warning, does not call the
    capability, and returns and stores a pass-through result with
    dimensions 1200 x 630 and an empty source-set; a repeated identical
    call returns that result again.  (When only one of the two dimensions
    is lacking the other one is kept.)  When the key is in the cache the
    stored result is returned and nothing is logged. *)
Theorem missing_dimensions_degrade
    (getImage : list Event -> ImageTransform -> Exn + GetImageResult)
    (o : OptimizeImageOptions) (s k : string) (st : State) :
  src o = SrcString s ->
  ~ remote_url s ->
  truthy (width o) = false \/ truthy (height o) = false ->
  getCacheKey o = Returned k ->
  exists r st',
    optimizeImage getImage o st = (Returned r, st')
    /\ count_events is_getImage (emitted st st') = 0%nat
    /\ imageCache st' !! k = Some r
    /\ match imageCache st !! k with
       | None =>
           res_src r = s
           /\ attributes r = {| attr_width := Some (orNum (width o) 1200);
                                attr_height := Some (orNum (height o) 630) |}
           /\ (truthy (width o) = false -> truthy (height o) = false ->
               attributes r = {| attr_width := Some 1200; attr_height := Some 630 |})
           /\ srcSet r = emptySrcSet
           /\ emitted st st' = [EvWarn (warnMessage s); EvCacheSet k r]
           /\ count_events is_warn (emitted st st') = 1%nat
           /\ imageCache st' = <[k := r]> (imageCache st)
           /\ optimizeImage getImage o st' = (Returned r, st')
       | Some r0 =>
           r = r0 /\ st' = st /\ count_events is_warn (emitted st st') = 0%nat
       end.
Proof.
  intros Hs Hloc Hdims Hk.
  destruct (imageCache st !! k) as [r0|] eqn:Hc.
  - exists r0, st. rewrite emitted_refl. split; [by apply optimizeImage_hit with k|done].
  - assert (startsWith s "http://" || startsWith s "https://" = false) as Hr.
    { destruct (startsWith s "http://" || startsWith s "https://") eqn:E; [|done].
      by apply remote_url_iff in E. }
    assert (negb (truthy (width o)) || negb (truthy (height o)) = true) as Hd.
    { destruct Hdims as [-> | ->]; [done|]. by rewrite orb_true_r. }
    pose proof (optimizeImage_missing_dimensions getImage o k st Hk Hc s Hs Hr Hd) as Hrun.
    simpl in Hrun. eexists _, _. split; [exact Hrun|].
    rewrite emitted_app. simpl. split; [done|]. split; [apply lookup_insert_eq|].
    repeat split; try done;
      [|apply optimizeImage_hit with k; [done|apply lookup_insert_eq]].
    intros Hw Hh. unfold truthy in Hw, Hh. unfold orNum.
    destruct (width o) as [w|], (height o) as [h|]; try done.
    + apply negb_false_iff in Hw, Hh. by rewrite Hw, Hh.
    + apply negb_false_iff in Hw. by rewrite Hw.
    + apply negb_false_iff in Hh. by rewrite Hh.
Qed.

(** ** Failure of the capability *)

(** C5. Take a request that the code hands to the capability (local path
    with width and height, or asset handle; key not in the cache) and let
    the capability throw.  Then [optimizeImage] calls the capability once,
    logs the error once, and returns a fallback result with an empty
    source-set whose dimensions are the requested ones, else the intrinsic
    ones of the asset.  The result is stored under the request's key, and a
    second identical call returns it from an unchanged state: no second
    call of the capability and no second log entry. *)
Theorem capability_failure_degrades
    (getImage : list Event -> ImageTransform -> Exn + GetImageResult)
    (o : OptimizeImageOptions) (k : string) (e : Exn) (st : State) :
  routed_to_capability o ->
  getCacheKey o = Returned k ->
  imageCache st !! k = None ->
  getImage (trace st) (transformRequest o) = inl e ->
  exists r st',
    optimizeImage getImage o st = (Returned r, st')
    /\ attr_width (attributes r) = bestKnown (width o) (intrinsicWidth (src o))
    /\ attr_height (attributes r) = bestKnown (height o) (intrinsicHeight (src o))
    /\ srcSet r = emptySrcSet
    /\ count_events is_error (emitted st st') = 1%nat
    /\ count_events is_getImage (emitted st st') = 1%nat
    /\ imageCache st' = <[k := r]> (imageCache st)
    /\ imageCache st' !! k = Some r
    /\ optimizeImage getImage o st' = (Returned r, st')
    /\ emitted st' (optimizeImage getImage o st').2 = [].
Proof.
  intros Hrouted Hk Hc Hthrow. unfold routed_to_capability in Hrouted.
  destruct (src o) as [|s|m] eqn:Hs; [done| |].
  - destruct Hrouted as (Hloc & Hw & Hh).
    assert (startsWith s "http://" || startsWith s "https://" = false) as Hr.
    { destruct (startsWith s "http://" || startsWith s "https://") eqn:E; [|done].
      by apply remote_url_iff in E. }
    assert (negb (truthy (width o)) || negb (truthy (height o)) = false) as Hd
      by (by rewrite Hw, Hh).
    pose proof (optimizeImage_path_failed getImage o k st Hk Hc s e Hs Hr Hd Hthrow) as Hrun.
    simpl in Hrun. eexists _, _. split; [exact Hrun|].
    rewrite emitted_app. unfold bestKnown. rewrite Hw, Hh. simpl.
    repeat split; try done; try apply lookup_insert_eq.
    + apply optimizeImage_hit with k; [done|]. apply lookup_insert_eq.
    + erewrite optimizeImage_hit; [apply emitted_refl|done|apply lookup_insert_eq].
  - pose proof (optimizeImage_metadata_failed getImage o k st Hk Hc m e Hs Hthrow) as Hrun.
    simpl in Hrun. eexists _, _. split; [exact Hrun|].
    rewrite emitted_app. simpl.
    assert (forall n d, Some (orNum n d) = bestKnown n (Some d)) as Hbest.
    { intros [z|] d; unfold bestKnown, orNum, truthy; [|done].
      by destruct (z =? 0). }
    rewrite <- !Hbest.
    repeat split; try done; try apply lookup_insert_eq.
    + apply optimizeImage_hit with k; [done|]. apply lookup_insert_eq.
    + erewrite optimizeImage_hit; [apply emitted_refl|done|apply lookup_insert_eq].
Qed.

(** ** Remote sources *)

(** C6, as amended.  A request whose source is an [http://] or [https://]
    URL string never calls the capability.  When its key is not in the
    cache it returns and stores a pass-through result whose [src] is the
    URL, with the requested dimensions or the defaults 1200 x 630 and an
    empty source-set; a repeated identical call returns that result again.
    When the key is in the cache already it returns what is stored there. *)
Theorem remote_pass_through
    (getImage : list Event -> ImageTransform -> Exn + GetImageResult)
    (o : OptimizeImageOptions) (s k : string) (st : State) :
  src o = SrcString s ->
  remote_url s ->
  getCacheKey o = Returned k ->
  exists r st',
    optimizeImage getImage o st = (Returned r, st')
    /\ count_events is_getImage (emitted st st') = 0%nat
    /\ imageCache st' !! k = Some r
    /\ match imageCache st !! k with
       | None =>
           res_src r = s
           /\ attributes r = {| attr_width := Some (orNum (width o) 1200);
                                attr_height := Some (orNum (height o) 630) |}
           /\ (width o = None -> height o = None ->
               attributes r = {| attr_width := Some 1200; attr_height := Some 630 |})
           /\ srcSet r = emptySrcSet
           /\ emitted st st' = [EvCacheSet k r]
           /\ imageCache st' = <[k := r]> (imageCache st)
           /\ optimizeImage getImage o st' = (Returned r, st')
       | Some r0 => r = r0 /\ st' = st
       end.
Proof.
  intros Hs Hrem Hk. apply remote_url_iff in Hrem.
  destruct (imageCache st !! k) as [r0|] eqn:Hc.
  - exists r0, st. rewrite emitted_refl. split; [by apply optimizeImage_hit with k|done].
  - pose proof (optimizeImage_remote getImage o k st Hk Hc s Hs Hrem) as Hrun.
    simpl in Hrun. eexists _, _. split; [exact Hrun|].
    rewrite emitted_app. simpl. split; [done|]. split; [apply lookup_insert_eq|].
    repeat split; try done.
    + by intros -> ->.
    + apply optimizeImage_hit with k; [done|apply lookup_insert_eq].
Qed.

(** ** Which requests share a key *)

(** C1, as amended.  Two requests get the same cache key when they have the
    same normalized source identifier and the same width, height, format
    and quality once every unset (or zero) field is read as the placeholder
    [auto]; after one of them has been served, the other returns the same
    stored result from an unchanged state.  Both wrappers fill in all four
    fields, so a hero request and a card request whose parameters agree
    after the wrappers' defaults behave as one and the same request. *)
Theorem same_key_same_result
    (getImage : list Event -> ImageTransform -> Exn + GetImageResult)
    (o1 o2 : OptimizeImageOptions) (st : State) :
  src o1 <> SrcUndefined ->
  (same_key_params o1 o2 ->
     getCacheKey o1 = getCacheKey o2
     /\ exists r st1,
          optimizeImage getImage o1 st = (Returned r, st1)
          /\ optimizeImage getImage o2 st1 = (Returned r, st1))
  /\ (forall s ov ov',
        orNum (ov_get ov_width ov) 1200 = orNum (ov_get ov_width ov') 400 ->
        orNum (ov_get ov_height ov) 630 = orNum (ov_get ov_height ov') 225 ->
        orFormat (ov_get ov_format ov) webp = orFormat (ov_get ov_format ov') webp ->
        orNum (ov_get ov_quality ov) 80 = orNum (ov_get ov_quality ov') 75 ->
        getCacheKey (heroOptions s ov) = getCacheKey (cardOptions s ov')
        /\ getOptimizedHeroImage getImage s ov st = getOptimizedCardImage getImage s ov' st).
Proof.
  intros Hsrc. destruct (getCacheKey_present o1 Hsrc) as [k Hk].
  split.
  - intros (Hid & Hw & Hh & Hf & Hq).
    assert (forall a b, placeholder a = placeholder b -> numOrAuto a = numOrAuto b) as Hnum.
    { intros [a|] [b|]; unfold placeholder, truthy, numOrAuto; simpl;
        repeat match goal with |- context [?z =? 0] => destruct (z =? 0) end;
        simpl; congruence. }
    assert (getCacheKey o1 = getCacheKey o2) as Hkeys.
    { unfold getCacheKey. rewrite <- Hid, <- Hf.
      by rewrite (Hnum _ _ Hw), (Hnum _ _ Hh), (Hnum _ _ Hq). }
    split; [done|].
    destruct (imageCache st !! k) as [r0|] eqn:Hc.
    + exists r0, st. split; apply optimizeImage_hit with k; congruence.
    + destruct (optimizeImage_miss getImage o1 k st Hk Hc) as (r & evs & Hrun & _).
      eexists r, _. split; [exact Hrun|].
      apply optimizeImage_hit with k; [congruence|]. apply lookup_insert_eq.
  - intros s ov ov' Ew Eh Ef Eq.
    assert (heroOptions s ov = cardOptions s ov') as Heq.
    { unfold heroOptions, cardOptions. by rewrite Ew, Eh, Ef, Eq. }
    unfold getOptimizedHeroImage, getOptimizedCardImage. by rewrite Heq.
Qed.

(** ** The examples of the specification, run *)

Example remote_example :
  optimizeImage failingCapability remoteRequest initialState
  = (Returned (passThrough "https://example.com/x.jpg" (Some 1200) (Some 630)),
     {| imageCache :=
          {[ "https://example.com/x.jpg-auto-auto-auto-auto" :=
               passThrough "https://example.com/x.jpg" None None ]};
        trace := [EvCacheSet "https://example.com/x.jpg-auto-auto-auto-auto"
                    (passThrough "https://example.com/x.jpg" None None)] |}).
Proof. vm_compute. reflexivity. Qed.

Example missing_dimensions_example :
  let r := passThrough "/local.png" None None in
  let st1 := {| imageCache := {[ "/local.png-auto-auto-auto-auto" := r ]};
                trace := [EvWarn (warnMessage "/local.png");
                          EvCacheSet "/local.png-auto-auto-auto-auto" r] |} in
  attributes r = {| attr_width := Some 1200; attr_height := Some 630 |}
  /\ optimizeImage workingCapability localNoDims initialState = (Returned r, st1)
  /\ optimizeImage workingCapability localNoDims st1 = (Returned r, st1).
Proof. vm_compute. by repeat split. Qed.

Example failure_example :
  let r := pathFallback "/local.png" (Some 400) (Some 225) in
  let st1 := {| imageCache := {[ "/local.png-400-225-auto-auto" := r ]};
                trace := [EvGetImage (transformRequest localWithDims);
                          EvError (pathErrorMessage "/local.png")
                            (CapabilityError "transform failed");
                          EvCacheSet "/local.png-400-225-auto-auto" r] |} in
  optimizeImage failingCapability localWithDims initialState = (Returned r, st1)
  /\ optimizeImage failingCapability localWithDims st1 = (Returned r, st1).
Proof. vm_compute. by repeat split. Qed.

Example transcoded_example :
  let r := sampleTranscoded (transformRequest localWithDims) in
  optimizeImage workingCapability localWithDims initialState
  = (Returned r,
     {| imageCache := {[ "/local.png-400-225-auto-auto" := r ]};
        trace := [EvGetImage (transformRequest localWithDims);
                  EvCacheSet "/local.png-400-225-auto-auto" r] |}).
Proof. vm_compute. reflexivity. Qed.

Example null_source_example :
  getOptimizedHeroImage workingCapability SrcUndefined None initialState
    = (Returned None, initialState)
  /\ getOptimizedCardImage workingCapability SrcUndefined None initialState
    = (Returned None, initialState)
  /\ getOptimizedCardImage workingCapability (SrcString "") None initialState
    = (Returned None, initialState).
Proof. by repeat split. Qed.

Example card_example :
  getCacheKey (cardOptions (SrcString "/a.png") None) = Returned "/a.png-400-225-webp-75"
  /\ getCacheKey (heroOptions (SrcString "/a.png") None) = Returned "/a.png-1200-630-webp-80"
  /\ getCacheKey (heroOptions (SrcString "/a.png") heroOverrides)
     = getCacheKey (cardOptions (SrcString "/a.png") cardOverrides).
Proof. vm_compute. by repeat split. Qed.

Example path_validation_example :
  forall st,
    isValidImagePath (Some "https://x/y.png") st = (Returned true, st)
    /\ isValidImagePath (Some "/a/b.png") st = (Returned true, st)
    /\ isValidImagePath (Some "./a.png") st = (Returned true, st)
    /\ isValidImagePath (Some "../a.png") st = (Returned true, st)
    /\ isValidImagePath (Some "a.png") st = (Returned false, st)
    /\ isValidImagePath (Some "") st = (Returned false, st)
    /\ isValidImagePath None st = (Returned false, st).
Proof. intros st. by repeat split. Qed.

(** ** Where the stated claims fail *)

Lemma local_png_not_remote : ~ remote_url "/local.png".
Proof. intros H. apply remote_url_iff in H. discriminate H. Qed.

Lemma example_url_remote : remote_url "https://example.com/x.jpg".
Proof. right. by exists "example.com/x.jpg". Qed.

(** C1 as stated fails: a direct request that leaves format and quality
    unset and the hero wrapper's request for the same picture come down to
    the same effective parameters (400 x 225, webp, quality 80), yet their
    keys are [/a.png-400-225-auto-auto] and [/a.png-400-225-webp-80]. *)
Lemma explicit_defaults_change_key :
  ~ (forall o1 o2 : OptimizeImageOptions,
       effectiveParams o1 = effectiveParams o2 ->
       getCacheKey o1 = getCacheKey o2).
Proof.
  intros H.
  specialize (H directRequest (heroOptions (SrcString "/a.png") heroOverrides)).
  vm_compute in H. specialize (H eq_refl). discriminate H.
Qed.

(** The two requests above are both sent to the capability, with the same
    argument. *)
Example explicit_defaults_transcode_twice :
  List.filter is_getImage
    (trace (run_calls workingCapability
              [CallOptimize directRequest; CallHero (SrcString "/a.png") heroOverrides]
              initialState))
  = [EvGetImage (transformRequest directRequest);
     EvGetImage (transformRequest directRequest)].
Proof. vm_compute. reflexivity. Qed.

(** C4 as stated fails: the second of two identical requests for a local
    path without dimensions logs no warning. *)
Lemma repeated_request_warns_no_more :
  ~ (forall (getImage : list Event -> ImageTransform -> Exn + GetImageResult)
            (cs : list Call) (o : OptimizeImageOptions) (s : string),
       src o = SrcString s ->
       ~ remote_url s ->
       width o = None ->
       height o = None ->
       let st := run_calls getImage cs initialState in
       count_events is_warn (emitted st (optimizeImage getImage o st).2) = 1%nat).
Proof.
  intros H.
  specialize (H failingCapability [CallOptimize localNoDims] localNoDims "/local.png"
                eq_refl local_png_not_remote eq_refl eq_refl).
  vm_compute in H. discriminate H.
Qed.

(** C6 as stated fails: after the hero image of an asset handle whose [src]
    is a URL has been optimized, the request for that URL as a string with
    the same parameters finds the asset's transcoded result under its key
    and returns it. *)
Lemma asset_entry_shadows_remote :
  ~ (forall (getImage : list Event -> ImageTransform -> Exn + GetImageResult)
            (cs : list Call) (o : OptimizeImageOptions) (s : string),
       src o = SrcString s ->
       remote_url s ->
       exists r st',
         optimizeImage getImage o (run_calls getImage cs initialState) = (Returned r, st')
         /\ res_src r = s).
Proof.
  intros H.
  destruct (H workingCapability [CallHero (SrcMetadata remoteAsset) None]
              (heroOptions (SrcString "https://example.com/x.jpg") None)
              "https://example.com/x.jpg" eq_refl example_url_remote)
    as (r & st' & Hrun & Hsrc).
  vm_compute in Hrun. injection Hrun as Hr _. subst r. discriminate Hsrc.
Qed.

(** C7 as stated fails: a call that hits the cache performs no insertion. *)
Lemma cache_hit_inserts_nothing :
  ~ (forall (getImage : list Event -> ImageTransform -> Exn + GetImageResult)
            (cs : list Call) (o : OptimizeImageOptions),
       src o <> SrcUndefined ->
       let st := run_calls getImage cs initialState in
       count_events is_cacheSet (emitted st (optimizeImage getImage o st).2) = 1%nat).
Proof.
  intros H.
  assert (src remoteRequest <> SrcUndefined) as Hsrc by discriminate.
  specialize (H failingCapability [CallOptimize remoteRequest] remoteRequest Hsrc).
  vm_compute in H. discriminate H.
Qed.

(** ** The theorems at concrete requests *)

(** A quality spelled out as [0] and an unset quality are the same to the key. *)
Lemma directRequest_zeroQuality_same_params :
  same_key_params directRequest zeroQualityRequest.
Proof. by repeat split. Qed.

(** [same_key_same_result] at a request and its copy with quality [0]. *)
Lemma same_key_same_result_witness :
  src directRequest <> SrcUndefined
  /\ getCacheKey directRequest = getCacheKey zeroQualityRequest
  /\ exists r st1,
       optimizeImage workingCapability directRequest initialState = (Returned r, st1)
       /\ optimizeImage workingCapability zeroQualityRequest st1 = (Returned r, st1).
Proof.
  assert (src directRequest <> SrcUndefined) as Hsrc by discriminate.
  split; [exact Hsrc|].
  exact (proj1 (same_key_same_result workingCapability directRequest zeroQualityRequest
                  initialState Hsrc) directRequest_zeroQuality_same_params).
Defined.

(** The failed request has left its fallback in the cache. *)
Lemma stateAfterFailure_cached :
  imageCache stateAfterFailure !! "/local.png-400-225-auto-auto"
  = Some (pathFallback "/local.png" (Some 400) (Some 225)).
Proof. vm_compute. reflexivity. Qed.

(** [optimizeImage_memoized] at the repeated failing request. *)
Lemma optimizeImage_memoized_witness :
  getCacheKey localWithDims = Returned "/local.png-400-225-auto-auto"
  /\ optimizeImage failingCapability localWithDims stateAfterFailure
     = (Returned (pathFallback "/local.png" (Some 400) (Some 225)), stateAfterFailure).
Proof.
  split; [reflexivity|].
  exact (proj1 (optimizeImage_memoized failingCapability localWithDims
                  "/local.png-400-225-auto-auto"
                  (pathFallback "/local.png" (Some 400) (Some 225))
                  stateAfterFailure eq_refl stateAfterFailure_cached)).
Defined.

(** [optimizeImage_never_throws] at a request whose capability throws. *)
Lemma optimizeImage_never_throws_witness :
  src localWithDims <> SrcUndefined
  /\ exists r st', optimizeImage failingCapability localWithDims initialState = (Returned r, st').
Proof.
  assert (src localWithDims <> SrcUndefined) as Hsrc by discriminate.
  split; [exact Hsrc|].
  exact (proj1 (optimizeImage_never_throws failingCapability localWithDims initialState Hsrc)).
Defined.

(** [missing_dimensions_degrade] at [/local.png] on the empty cache. *)
Lemma missing_dimensions_degrade_witness :
  exists r st',
    optimizeImage workingCapability localNoDims initialState = (Returned r, st')
    /\ count_events is_getImage (emitted initialState st') = 0%nat.
Proof.
  destruct (missing_dimensions_degrade workingCapability localNoDims "/local.png"
              "/local.png-auto-auto-auto-auto" initialState
              eq_refl local_png_not_remote (or_introl eq_refl) eq_refl)
    as (r & st' & Hrun & Hcalls & _).
  exists r, st'. exact (conj Hrun Hcalls).
Defined.

(** [/local.png] at 400 x 225 is handed to the capability. *)
Lemma localWithDims_routed : routed_to_capability localWithDims.
Proof. split; [exact local_png_not_remote|]. split; reflexivity. Qed.

(** [capability_failure_degrades] at [/local.png], 400 x 225. *)
Lemma capability_failure_degrades_witness :
  exists r st',
    optimizeImage failingCapability localWithDims initialState = (Returned r, st')
    /\ attr_width (attributes r) = Some 400
    /\ attr_height (attributes r) = Some 225.
Proof.
  destruct (capability_failure_degrades failingCapability localWithDims
              "/local.png-400-225-auto-auto" (CapabilityError "transform failed")
              initialState localWithDims_routed eq_refl eq_refl eq_refl)
    as (r & st' & Hrun & Hw & Hh & _).
  exists r, st'. exact (conj Hrun (conj Hw Hh)).
Defined.

(** [remote_pass_through] at [https://example.com/x.jpg] on the empty cache. *)
Lemma remote_pass_through_witness :
  exists r st',
    optimizeImage workingCapability remoteRequest initialState = (Returned r, st')
    /\ count_events is_getImage (emitted initialState st') = 0%nat.
Proof.
  destruct (remote_pass_through workingCapability remoteRequest
              "https://example.com/x.jpg" "https://example.com/x.jpg-auto-auto-auto-auto"
              initialState eq_refl example_url_remote eq_refl)
    as (r & st' & Hrun & Hcalls & _).
  exists r, st'. exact (conj Hrun Hcalls).
Defined.

(** [optimizeImage_insertion] at a remote request on the empty cache. *)
Lemma optimizeImage_insertion_witness :
  src remoteRequest <> SrcUndefined
  /\ exists k r st',
       getCacheKey remoteRequest = Returned k
       /\ optimizeImage failingCapability remoteRequest initialState = (Returned r, st')
       /\ imageCache st' !! k = Some r.
Proof.
  assert (src remoteRequest <> SrcUndefined) as Hsrc by discriminate.
  split; [exact Hsrc|].
  destruct (optimizeImage_insertion failingCapability remoteRequest initialState Hsrc)
    as (k & r & st' & Hk & Hrun & Hc & _).
  exists k, r, st'. exact (conj Hk (conj Hrun Hc)).
Defined.

(** ** Further properties of the image module *)

Lemma count_events_app (p : Event -> bool) (l l' : list Event) :
  count_events p (l ++ l') = (count_events p l + count_events p l')%nat.
Proof. unfold count_events. by rewrite List.filter_app, length_app. Qed.

Lemma orNum_truthy (n : option Z) (d : Z) : d <> 0 -> truthy (Some (orNum n d)) = true.
Proof.
  intros Hd. unfold truthy, orNum. destruct n as [z|].
  - destruct (Z.eqb_spec z 0); apply negb_true_iff, Z.eqb_neq; done.
  - by apply negb_true_iff, Z.eqb_neq.
Qed.

Lemma orNum_placeholder (a b : option Z) (d : Z) :
  placeholder a = placeholder b -> orNum a d = orNum b d.
Proof.
  unfold placeholder, truthy, orNum. destruct a as [x|], b as [y|]; simpl;
    repeat match goal with |- context [?z =? 0] => destruct (Z.eqb_spec z 0) end;
    simpl; congruence.
Qed.

Lemma truthy_placeholder (a b : option Z) :
  placeholder a = placeholder b -> truthy a = truthy b.
Proof.
  unfold placeholder. destruct (truthy a) eqn:Ea, (truthy b) eqn:Eb; try done.
  - intros ->. unfold truthy in Ea. done.
  - intros <-. unfold truthy in Eb. done.
Qed.

Lemma truthy_placeholder_eq (a b : option Z) :
  placeholder a = placeholder b -> truthy a = true -> a = b.
Proof.
  intros H Ha. pose proof (truthy_placeholder a b H) as Hb.
  unfold placeholder in H. rewrite <- Hb, Ha in H. done.
Qed.

Lemma not_remote_false (s : string) :
  ~ remote_url s -> startsWith s "http://" || startsWith s "https://" = false.
Proof.
  intros Hloc. destruct (startsWith s "http://" || startsWith s "https://") eqn:E; [|done].
  by apply remote_url_iff in E.
Qed.

(** The five things a call can do to the outside. *)
Lemma optimizeImage_shapes
    (getImage : list Event -> ImageTransform -> Exn + GetImageResult)
    (o : OptimizeImageOptions) (k : string) (st : State) :
  getCacheKey o = Returned k ->
  exists r st',
    optimizeImage getImage o st = (Returned r, st')
    /\ trace st' = trace st ++ emitted st st'
    /\ ((emitted st st' = [] /\ st' = st /\ imageCache st !! k = Some r)
        \/ (imageCache st !! k = None
            /\ imageCache st' = <[k := r]> (imageCache st)
            /\ (emitted st st' = [EvCacheSet k r]
                \/ (exists s, src o = SrcString s
                      /\ emitted st st' = [EvWarn (warnMessage s); EvCacheSet k r])
                \/ (getImage (trace st) (transformRequest o) = inr r
                    /\ emitted st st' = [EvGetImage (transformRequest o); EvCacheSet k r])
                \/ (exists msg e,
                      getImage (trace st) (transformRequest o) = inl e
                      /\ emitted st st' = [EvGetImage (transformRequest o);
                                           EvError msg e; EvCacheSet k r])))).
Proof.
  intros Hk. destruct (imageCache st !! k) as [r0|] eqn:Hc.
  { exists r0, st. rewrite emitted_refl, app_nil_r.
    split; [by apply optimizeImage_hit with k|]. split; [done|]. by left. }
  destruct (src o) as [|s|m] eqn:Hs.
  - by apply getCacheKey_returned in Hk.
  - destruct (startsWith s "http://" || startsWith s "https://") eqn:Hr.
    { eexists _, _. split; [by apply optimizeImage_remote|].
      rewrite emitted_app. split; [done|]. right. repeat split; try done. by left. }
    destruct (negb (truthy (width o)) || negb (truthy (height o))) eqn:Hd.
    { eexists _, _. split; [by apply optimizeImage_missing_dimensions|].
      rewrite emitted_app. split; [done|]. right. repeat split; try done.
      right. left. by exists s. }
    destruct (getImage (trace st) (transformRequest o)) as [e|r] eqn:Hg.
    + eexists _, _. split; [by eapply optimizeImage_path_failed|].
      rewrite emitted_app. split; [done|]. right. repeat split; try done.
      right. right. right. by eexists _, _.
    + eexists _, _. split; [by eapply optimizeImage_path_transcoded|].
      rewrite emitted_app. split; [done|]. right. repeat split; try done.
      right. right. left. done.
  - destruct (getImage (trace st) (transformRequest o)) as [e|r] eqn:Hg.
    + eexists _, _. split; [by eapply optimizeImage_metadata_failed|].
      rewrite emitted_app. split; [done|]. right. repeat split; try done.
      right. right. right. by eexists _, _.
    + eexists _, _. split; [by eapply optimizeImage_metadata_transcoded|].
      rewrite emitted_app. split; [done|]. right. repeat split; try done.
      right. right. left. done.
Qed.

Lemma isValidImagePath_state (path : option string) (st : State) :
  exists b, isValidImagePath path st = (Returned b, st).
Proof.
  destruct path as [[|a p]|]; [by exists false| |by exists false].
  unfold isValidImagePath, ret.
  repeat match goal with |- context [if ?b then _ else _] => destruct b end; eauto.
Qed.

(** X1. A request that is handed to the capability and answered by it
    (local path with both dimensions, or asset handle; key not cached)
    returns the capability's own result and stores it under the key.  The
    capability is called once, with the source and dimensions as given,
    the format defaulted to webp and the quality to 80; nothing is logged;
    a repeated call returns the same result from the cache. *)
Theorem transcoded_result_is_cached
    (getImage : list Event -> ImageTransform -> Exn + GetImageResult)
    (o : OptimizeImageOptions) (k : string) (r : GetImageResult) (st : State) :
  routed_to_capability o ->
  getCacheKey o = Returned k ->
  imageCache st !! k = None ->
  getImage (trace st) (transformRequest o) = inr r ->
  exists st',
    optimizeImage getImage o st = (Returned r, st')
    /\ emitted st st' =
         [EvGetImage {| t_src := src o; t_width := width o; t_height := height o;
                        t_format := Some (default webp (format o));
                        t_quality := Some (if truthy (quality o)
                                           then default 80 (quality o) else 80) |};
          EvCacheSet k r]
    /\ imageCache st' = <[k := r]> (imageCache st)
    /\ optimizeImage getImage o st' = (Returned r, st').
Proof.
  intros Hrouted Hk Hc Hg. unfold routed_to_capability in Hrouted.
  assert (transformRequest o =
          {| t_src := src o; t_width := width o; t_height := height o;
             t_format := Some (default webp (format o));
             t_quality := Some (if truthy (quality o)
                                then default 80 (quality o) else 80) |}) as Ht.
  { unfold transformRequest, orFormat, orNum, truthy.
    destruct (format o), (quality o) as [z|]; simpl; try done; by destruct (z =? 0). }
  assert (exists st',
            optimizeImage getImage o st = (Returned r, st')
            /\ st' = {| imageCache := <[k := r]> (imageCache st);
                        trace := trace st ++ [EvGetImage (transformRequest o);
                                              EvCacheSet k r] |}) as (st' & Hrun & ->).
  { destruct (src o) as [|s|m] eqn:Hs; [done| |].
    - destruct Hrouted as (Hloc & Hw & Hh). eexists. split; [|done].
      eapply optimizeImage_path_transcoded; try done.
      + by apply not_remote_false.
      + by rewrite Hw, Hh.
    - eexists. split; [|done]. by eapply optimizeImage_metadata_transcoded. }
  eexists. split; [exact Hrun|]. rewrite emitted_app, <- Ht.
  repeat split; try done.
  apply optimizeImage_hit with k; [done|]. apply lookup_insert_eq.
Qed.

(** X2. What one call may do: it calls the capability at most once, stores
    at most one entry, logs at most one line (a warning or an error, never
    both), logs an error only after a call of the capability and a warning
    only without one; and it leaves the state unchanged exactly when it
    stores nothing. *)
Theorem optimizeImage_footprint
    (getImage : list Event -> ImageTransform -> Exn + GetImageResult)
    (o : OptimizeImageOptions) (st : State) :
  src o <> SrcUndefined ->
  exists r st',
    optimizeImage getImage o st = (Returned r, st')
    /\ trace st' = trace st ++ emitted st st'
    /\ (count_events is_getImage (emitted st st') <= 1)%nat
    /\ (count_events is_cacheSet (emitted st st') <= 1)%nat
    /\ (count_events is_warn (emitted st st')
        + count_events is_error (emitted st st') <= 1)%nat
    /\ (count_events is_error (emitted st st')
        <= count_events is_getImage (emitted st st'))%nat
    /\ (count_events is_warn (emitted st st')
        + count_events is_getImage (emitted st st') <= 1)%nat
    /\ (count_events is_cacheSet (emitted st st') = 0%nat <-> st' = st).
Proof.
  intros Hsrc. destruct (getCacheKey_present o Hsrc) as [k Hk].
  destruct (optimizeImage_shapes getImage o k st Hk) as (r & st' & Hrun & Htr & Hshape).
  exists r, st'. split; [done|]. split; [done|].
  destruct Hshape as [(Hev & -> & _)|(Hc & Hins & Hev)].
  - rewrite Hev. unfold count_events. simpl. repeat split; try lia; done.
  - assert (st' <> st) as Hne.
    { intros ->. rewrite Hins, lookup_insert_eq in Hc. discriminate Hc. }
    destruct Hev as [Hev|[(s & _ & Hev)|[(_ & Hev)|(msg & e & _ & Hev)]]];
      rewrite Hev; unfold count_events; simpl;
      repeat split; try lia; try done.
Qed.

(** Storing one fresh entry keeps the bookkeeping of the cache. *)
Lemma store_keeps_consistent (st : State) (k : string) (r : GetImageResult)
    (evs : list Event) :
  cache_consistent st ->
  imageCache st !! k = None ->
  (forall k' r', In (EvCacheSet k' r') evs <-> k' = k /\ r' = r) ->
  count_events is_cacheSet evs = 1%nat ->
  (count_events is_error evs <= count_events is_getImage evs)%nat ->
  (count_events is_getImage evs <= 1)%nat ->
  cache_consistent {| imageCache := <[k := r]> (imageCache st);
                      trace := trace st ++ evs |}.
Proof.
  intros (Hmem & Hsize & Herr & Hget) Hc Hin Hc1 Hc2 Hc3.
  unfold cache_consistent. simpl. rewrite !count_events_app.
  split; [|split; [rewrite map_size_insert_None by done; lia|lia]].
  intros k' r'. rewrite in_app_iff, Hin, <- Hmem.
  destruct (decide (k = k')) as [<-|Hne].
  - rewrite lookup_insert_eq, Hc. split.
    + intros [= ->]. tauto.
    + intros [?|[_ ->]]; done.
  - rewrite lookup_insert_ne by done. split; [tauto|]. intros [?|[-> _]]; done.
Qed.

(** Every call keeps the bookkeeping of the cache. *)
Lemma optimizeImage_keeps_consistent
    (getImage : list Event -> ImageTransform -> Exn + GetImageResult)
    (o : OptimizeImageOptions) (st : State) :
  cache_consistent st -> cache_consistent (optimizeImage getImage o st).2.
Proof.
  intros Hinv. destruct (src o) as [|s|m] eqn:Hs.
  { by rewrite optimizeImage_absent_source. }
  all: destruct (getCacheKey_present o) as [k Hk]; [congruence|].
  all: destruct (optimizeImage_shapes getImage o k st Hk)
         as (r & [c' tr'] & Hrun & Htr & Hshape).
  all: rewrite Hrun; simpl in *.
  all: destruct Hshape as [(_ & -> & _)|(Hc & -> & Hev)]; [done|].
  all: rewrite Htr.
  all: apply store_keeps_consistent; [done|done|..].
  all: destruct Hev as [Hev|[(s' & _ & Hev)|[(_ & Hev)|(msg & e & _ & Hev)]]].
  all: rewrite Hev; unfold count_events; simpl; try lia.
  all: intros k' r'; split;
         [intros H; repeat destruct H as [H|H]; try done; by injection H
         |intros [-> ->]; tauto].
Qed.

Lemma run_call_keeps_consistent
    (getImage : list Event -> ImageTransform -> Exn + GetImageResult)
    (c : Call) (st : State) :
  cache_consistent st -> cache_consistent (run_call getImage st c).
Proof.
  intros Hinv. destruct c as [o|s ov|s ov|p]; simpl.
  - by apply optimizeImage_keeps_consistent.
  - unfold getOptimizedHeroImage. destruct (src_falsy s); [done|].
    rewrite (wrapper_state getImage s). by apply optimizeImage_keeps_consistent.
  - unfold getOptimizedCardImage. destruct (src_falsy s); [done|].
    rewrite (wrapper_state getImage s). by apply optimizeImage_keeps_consistent.
  - destruct (isValidImagePath_state p st) as [b ->]. done.
Qed.

(** X3. Let the module be called any number of times from an empty cache,
    one call after the other, each call completed before the next one
    starts, whatever the capability does.  Then in the state reached the
    cache holds exactly the entries that were stored, no key was stored
    twice (as many stores as entries), the capability was called at most
    once per entry, and error logs do not outnumber calls of the
    capability.  (Calls that overlap at [await getImage] are not covered:
    two of them for one key both miss and both store.) *)
Theorem reachable_cache_consistent
    (getImage : list Event -> ImageTransform -> Exn + GetImageResult)
    (cs : list Call) :
  let st := run_calls getImage cs initialState in
  (forall k r, imageCache st !! k = Some r <-> In (EvCacheSet k r) (trace st))
  /\ count_events is_cacheSet (trace st) = size (imageCache st)
  /\ (count_events is_error (trace st) <= count_events is_getImage (trace st))%nat
  /\ (count_events is_getImage (trace st) <= size (imageCache st))%nat.
Proof.
  assert (forall st, cache_consistent st ->
            cache_consistent (run_calls getImage cs st)) as Hall.
  { induction cs as [|c cs IH]; intros st Hinv; [done|].
    simpl. apply IH. by apply run_call_keeps_consistent. }
  assert (cache_consistent initialState) as H0.
  { unfold cache_consistent, initialState, count_events. simpl.
    rewrite map_size_empty. split; [|lia].
    intros k r. rewrite lookup_empty. split; [discriminate|tauto]. }
  destruct (Hall initialState H0) as (Hmem & Hsize & Herr & Hget).
  simpl. split; [exact Hmem|]. split; [exact Hsize|]. split; [exact Herr|].
  by rewrite <- Hsize.
Qed.

(** A request with both dimensions given never logs the warning. *)
Lemma optimizeImage_with_dimensions
    (getImage : list Event -> ImageTransform -> Exn + GetImageResult)
    (o : OptimizeImageOptions) (st : State) :
  truthy (width o) = true ->
  truthy (height o) = true ->
  count_events is_warn (emitted st (optimizeImage getImage o st).2) = 0%nat.
Proof.
  intros Hw Hh. destruct (src o) as [|s|m] eqn:Hs.
  { rewrite optimizeImage_absent_source by done. by rewrite emitted_refl. }
  all: destruct (getCacheKey_present o) as [k Hk]; [congruence|].
  all: destruct (optimizeImage_shapes getImage o k st Hk)
         as (r & st' & Hrun & _ & Hshape).
  all: rewrite Hrun; simpl.
  all: destruct Hshape as [(-> & _)|(Hc & _ & Hev)]; [done|].
  all: destruct Hev as [->|[(s' & Hs' & Hev)|[(_ & ->)|(msg & e & _ & ->)]]]; try done.
  - (* the warning branch needs a missing dimension *)
    exfalso.
    destruct (startsWith s "http://" || startsWith s "https://") eqn:Hr.
    + pose proof (optimizeImage_remote getImage o k st Hk Hc s Hs Hr) as Hrun'.
      simpl in Hrun'. rewrite Hrun in Hrun'. injection Hrun' as _ ->.
      rewrite emitted_app in Hev. discriminate Hev.
    + assert (negb (truthy (width o)) || negb (truthy (height o)) = false) as Hd
        by (by rewrite Hw, Hh).
      destruct (getImage (trace st) (transformRequest o)) as [e|r'] eqn:Hg.
      * pose proof (optimizeImage_path_failed getImage o k st Hk Hc s e Hs Hr Hd Hg) as Hrun'.
        simpl in Hrun'. rewrite Hrun in Hrun'. injection Hrun' as _ ->.
        rewrite emitted_app in Hev. discriminate Hev.
      * pose proof (optimizeImage_path_transcoded getImage o k st Hk Hc s r' Hs Hr Hd Hg)
          as Hrun'.
        rewrite Hrun in Hrun'. injection Hrun' as _ ->.
        rewrite emitted_app in Hev. discriminate Hev.
  - (* an asset handle never warns *)
    exfalso. congruence.
Qed.

(** X4. The wrappers never run into the missing-dimension warning: they
    always pass a width and a height (the override, or the preset when the
    override is unset or zero).  For a local path whose key is not cached
    they call the capability exactly once. *)
Theorem wrappers_always_give_dimensions
    (getImage : list Event -> ImageTransform -> Exn + GetImageResult)
    (s : ImageSource) (ov : option PresetOverrides) (st : State) :
  count_events is_warn (emitted st (getOptimizedHeroImage getImage s ov st).2) = 0%nat
  /\ count_events is_warn (emitted st (getOptimizedCardImage getImage s ov st).2) = 0%nat
  /\ (forall p k,
        s = SrcString p -> p <> "" -> ~ remote_url p ->
        getCacheKey (heroOptions s ov) = Returned k ->
        imageCache st !! k = None ->
        count_events is_getImage
          (emitted st (getOptimizedHeroImage getImage s ov st).2) = 1%nat)
  /\ (forall p k,
        s = SrcString p -> p <> "" -> ~ remote_url p ->
        getCacheKey (cardOptions s ov) = Returned k ->
        imageCache st !! k = None ->
        count_events is_getImage
          (emitted st (getOptimizedCardImage getImage s ov st).2) = 1%nat).
Proof.
  assert (forall o p k,
            src o = SrcString p -> ~ remote_url p ->
            truthy (width o) = true -> truthy (height o) = true ->
            getCacheKey o = Returned k -> imageCache st !! k = None ->
            count_events is_getImage (emitted st (optimizeImage getImage o st).2) = 1%nat)
    as Hcall.
  { intros o p k Hs Hloc Hw Hh Hk Hc.
    assert (negb (truthy (width o)) || negb (truthy (height o)) = false) as Hd
      by (by rewrite Hw, Hh).
    pose proof (not_remote_false p Hloc) as Hr.
    destruct (getImage (trace st) (transformRequest o)) as [e|r] eqn:Hg.
    - pose proof (optimizeImage_path_failed getImage o k st Hk Hc p e Hs Hr Hd Hg) as Hrun.
      simpl in Hrun. rewrite Hrun. simpl. by rewrite emitted_app.
    - rewrite (optimizeImage_path_transcoded getImage o k st Hk Hc p r Hs Hr Hd Hg).
      simpl. by rewrite emitted_app. }
  unfold getOptimizedHeroImage, getOptimizedCardImage.
  split; [|split; [|split]].
  - destruct (src_falsy s); [by rewrite emitted_refl|].
    rewrite (wrapper_state getImage s).
    apply optimizeImage_with_dimensions; by apply orNum_truthy.
  - destruct (src_falsy s); [by rewrite emitted_refl|].
    rewrite (wrapper_state getImage s).
    apply optimizeImage_with_dimensions; by apply orNum_truthy.
  - intros p k -> Hp Hloc Hk Hc.
    assert (src_falsy (SrcString p) = false) as -> by (by destruct p).
    rewrite (wrapper_state getImage (SrcString p)).
    apply Hcall with p k; try done; by apply orNum_truthy.
  - intros p k -> Hp Hloc Hk Hc.
    assert (src_falsy (SrcString p) = false) as -> by (by destruct p).
    rewrite (wrapper_state getImage (SrcString p)).
    apply Hcall with p k; try done; by apply orNum_truthy.
Qed.

Lemma src_truthy_present (s : ImageSource) : src_falsy s = false -> s <> SrcUndefined.
Proof. by intros H ->. Qed.

(** X5. Asking a wrapper twice for the same source with the same overrides
    gives the same result the second time, and the second call changes
    nothing: no capability call, no store, no log. *)
Theorem wrappers_repeat
    (getImage : list Event -> ImageTransform -> Exn + GetImageResult)
    (s : ImageSource) (ov : option PresetOverrides) (st : State) :
  src_falsy s = false ->
  (exists r st1,
     getOptimizedHeroImage getImage s ov st = (Returned (Some r), st1)
     /\ getOptimizedHeroImage getImage s ov st1 = (Returned (Some r), st1))
  /\ (exists r st1,
        getOptimizedCardImage getImage s ov st = (Returned (Some r), st1)
        /\ getOptimizedCardImage getImage s ov st1 = (Returned (Some r), st1)).
Proof.
  intros Hs.
  assert (forall o, src o = s ->
            exists r st1,
              optimizeImage getImage o st = (Returned r, st1)
              /\ optimizeImage getImage o st1 = (Returned r, st1)) as Htwice.
  { intros o Ho.
    destruct (getCacheKey_present o) as [k Hk].
    { rewrite Ho. by apply src_truthy_present. }
    destruct (optimizeImage_shapes getImage o k st Hk) as (r & st1 & Hrun & _ & Hshape).
    exists r, st1. split; [done|].
    apply optimizeImage_hit with k; [done|].
    destruct Hshape as [(_ & -> & Hc)|(_ & -> & _)]; [done|apply lookup_insert_eq]. }
  unfold getOptimizedHeroImage, getOptimizedCardImage, bind, ret. rewrite Hs.
  split.
  - destruct (Htwice (heroOptions s ov) eq_refl) as (r & st1 & H1 & H2).
    exists r, st1. by rewrite H1, H2.
  - destruct (Htwice (cardOptions s ov) eq_refl) as (r & st1 & H1 & H2).
    exists r, st1. by rewrite H1, H2.
Qed.

Lemma orNum_nonneg (n : option Z) (d : Z) : nonneg n -> 0 <= d -> 0 <= orNum n d.
Proof.
  unfold nonneg, orNum. destruct n as [z|]; [|done].
  destruct (z =? 0); done.
Qed.

Lemma placeholder_truthy_inj (a b : Z) :
  a <> 0 -> b <> 0 -> placeholder (Some a) = placeholder (Some b) -> a = b.
Proof.
  intros Ha Hb. unfold placeholder, truthy.
  destruct (Z.eqb_spec a 0), (Z.eqb_spec b 0); simpl; congruence.
Qed.

Lemma orNum_nonzero (n : option Z) (d : Z) : d <> 0 -> orNum n d <> 0.
Proof.
  intros Hd. unfold orNum. destruct n as [z|]; [|done].
  by destruct (Z.eqb_spec z 0).
Qed.

(** X6. A hero request and a card request for the same source share a
    cache entry exactly when their width, height, format and quality
    coincide after the presets are filled in (overrides not negative).  With
    the presets alone they never do. *)
Theorem hero_card_share_entry
    (s : ImageSource) (ov ov' : option PresetOverrides) :
  s <> SrcUndefined ->
  nonneg_overrides ov ->
  nonneg_overrides ov' ->
  (getCacheKey (heroOptions s ov) = getCacheKey (cardOptions s ov')
   <-> orNum (ov_get ov_width ov) 1200 = orNum (ov_get ov_width ov') 400
       /\ orNum (ov_get ov_height ov) 630 = orNum (ov_get ov_height ov') 225
       /\ orFormat (ov_get ov_format ov) webp = orFormat (ov_get ov_format ov') webp
       /\ orNum (ov_get ov_quality ov) 80 = orNum (ov_get ov_quality ov') 75)
  /\ getCacheKey (heroOptions s None) <> getCacheKey (cardOptions s None).
Proof.
  intros Hs (Hw & Hh & Hq) (Hw' & Hh' & Hq').
  assert (forall ov1 ov2,
            nonneg_overrides ov1 -> nonneg_overrides ov2 ->
            getCacheKey (heroOptions s ov1) = getCacheKey (cardOptions s ov2) ->
            orNum (ov_get ov_width ov1) 1200 = orNum (ov_get ov_width ov2) 400
            /\ orNum (ov_get ov_height ov1) 630 = orNum (ov_get ov_height ov2) 225
            /\ orFormat (ov_get ov_format ov1) webp = orFormat (ov_get ov_format ov2) webp
            /\ orNum (ov_get ov_quality ov1) 80 = orNum (ov_get ov_quality ov2) 75) as Hinj.
  { intros ov1 ov2 (H1 & H2 & H3) (H1' & H2' & H3') Hkeys.
    destruct (getCacheKey_present (heroOptions s ov1) Hs) as [k Hk].
    destruct (getCacheKey_inj (heroOptions s ov1) (cardOptions s ov2) k)
      as (_ & Ew & Eh & Ef & Eq); [| |done|congruence|].
    { repeat split; simpl; by apply orNum_nonneg. }
    { repeat split; simpl; by apply orNum_nonneg. }
    simpl in Ew, Eh, Ef, Eq.
    split; [|split; [|split]].
    - apply placeholder_truthy_inj; [by apply orNum_nonzero..|done].
    - apply placeholder_truthy_inj; [by apply orNum_nonzero..|done].
    - congruence.
    - apply placeholder_truthy_inj; [by apply orNum_nonzero..|done]. }
  split; [split|].
  - by apply Hinj.
  - intros (Ew & Eh & Ef & Eq). unfold heroOptions, cardOptions.
    by rewrite Ew, Eh, Ef, Eq.
  - intros Hkeys. apply Hinj in Hkeys as [Ew _]; [|by repeat split..].
    discriminate Ew.
Qed.

(** X7. For a path or URL string, a zero and an unset value are the same
    request: two requests with the same string, the same format, and width,
    height and quality equal up to unset-or-zero (and any [alt]) make
    [optimizeImage] behave identically in every state, cached or not. *)
Theorem string_request_zero_is_unset
    (getImage : list Event -> ImageTransform -> Exn + GetImageResult)
    (o1 o2 : OptimizeImageOptions) (s : string) (st : State) :
  src o1 = SrcString s ->
  src o2 = SrcString s ->
  placeholder (width o1) = placeholder (width o2) ->
  placeholder (height o1) = placeholder (height o2) ->
  format o1 = format o2 ->
  placeholder (quality o1) = placeholder (quality o2) ->
  optimizeImage getImage o1 st = optimizeImage getImage o2 st.
Proof.
  intros Hs1 Hs2 Hw Hh Hf Hq.
  assert (getCacheKey o1 = Returned
            (s +:+ "-" +:+ numOrAuto (width o1) +:+ "-" +:+ numOrAuto (height o1)
               +:+ "-" +:+ formatOrAuto (format o1) +:+ "-" +:+ numOrAuto (quality o1)))
    as Hk1 by (unfold getCacheKey; by rewrite Hs1).
  assert (forall a b, placeholder a = placeholder b -> numOrAuto a = numOrAuto b) as Hnum.
  { intros [a|] [b|]; unfold placeholder, truthy, numOrAuto; simpl;
      repeat match goal with |- context [?z =? 0] => destruct (z =? 0) end;
      simpl; congruence. }
  assert (getCacheKey o2 = getCacheKey o1) as Hk2.
  { unfold getCacheKey. rewrite Hs1, Hs2, Hf.
    by rewrite (Hnum _ _ Hw), (Hnum _ _ Hh), (Hnum _ _ Hq). }
  rewrite Hk1 in Hk2. set (k := (s +:+ _)%string) in *.
  destruct (imageCache st !! k) as [r0|] eqn:Hc.
  { by rewrite (optimizeImage_hit getImage o1 k st Hk1 r0 Hc),
               (optimizeImage_hit getImage o2 k st Hk2 r0 Hc). }
  assert (passThrough s (width o1) (height o1) = passThrough s (width o2) (height o2))
    as Hpass.
  { unfold passThrough.
    by rewrite (orNum_placeholder _ _ 1200 Hw), (orNum_placeholder _ _ 630 Hh). }
  destruct (startsWith s "http://" || startsWith s "https://") eqn:Hr.
  { pose proof (optimizeImage_remote getImage o1 k st Hk1 Hc s Hs1 Hr) as H1.
    pose proof (optimizeImage_remote getImage o2 k st Hk2 Hc s Hs2 Hr) as H2.
    simpl in H1, H2. by rewrite H1, H2, Hpass. }
  destruct (negb (truthy (width o1)) || negb (truthy (height o1))) eqn:Hd.
  { assert (negb (truthy (width o2)) || negb (truthy (height o2)) = true) as Hd2
      by (by rewrite <- (truthy_placeholder _ _ Hw), <- (truthy_placeholder _ _ Hh)).
    pose proof (optimizeImage_missing_dimensions getImage o1 k st Hk1 Hc s Hs1 Hr Hd) as H1.
    pose proof (optimizeImage_missing_dimensions getImage o2 k st Hk2 Hc s Hs2 Hr Hd2) as H2.
    simpl in H1, H2. by rewrite H1, H2, Hpass. }
  assert (negb (truthy (width o2)) || negb (truthy (height o2)) = false) as Hd2
    by (by rewrite <- (truthy_placeholder _ _ Hw), <- (truthy_placeholder _ _ Hh)).
  apply orb_false_iff in Hd as [Hw1 Hh1].
  apply negb_false_iff in Hw1, Hh1.
  pose proof (truthy_placeholder_eq _ _ Hw Hw1) as Ew.
  pose proof (truthy_placeholder_eq _ _ Hh Hh1) as Eh.
  assert (negb (truthy (width o1)) || negb (truthy (height o1)) = false) as Hd
    by (by rewrite Hw1, Hh1).
  assert (transformRequest o1 = transformRequest o2) as Ht.
  { unfold transformRequest.
    by rewrite Hs1, Hs2, Ew, Eh, Hf, (orNum_placeholder _ _ 80 Hq). }
  destruct (getImage (trace st) (transformRequest o1)) as [e|r] eqn:Hg.
  - pose proof (optimizeImage_path_failed getImage o1 k st Hk1 Hc s e Hs1 Hr Hd Hg) as H1.
    rewrite Ht in Hg.
    pose proof (optimizeImage_path_failed getImage o2 k st Hk2 Hc s e Hs2 Hr Hd2 Hg) as H2.
    simpl in H1, H2. by rewrite H1, H2, Ht, Ew, Eh.
  - pose proof (optimizeImage_path_transcoded getImage o1 k st Hk1 Hc s r Hs1 Hr Hd Hg) as H1.
    rewrite Ht in Hg.
    pose proof (optimizeImage_path_transcoded getImage o2 k st Hk2 Hc s r Hs2 Hr Hd2 Hg) as H2.
    by rewrite H1, H2, Ht.
Qed.

(** X8. [optimizeImage] throws exactly when the source is undefined; what it
    throws is the TypeError of reading [src] off [undefined], raised while
    the key is computed, so neither the cache nor the logs are touched and
    the capability is not called. *)
Theorem optimizeImage_throws_iff
    (getImage : list Event -> ImageTransform -> Exn + GetImageResult)
    (o : OptimizeImageOptions) (st : State) :
  ((exists e st', optimizeImage getImage o st = (Threw e, st'))
   <-> src o = SrcUndefined)
  /\ (forall e st',
        optimizeImage getImage o st = (Threw e, st') ->
        e = undefinedSrcError /\ st' = st).
Proof.
  destruct (src o) as [|s|m] eqn:Hs.
  - rewrite (optimizeImage_absent_source getImage o st Hs). split.
    + split; [done|]. intros _. by eexists _, _.
    + by intros e st' [= <- <-].
  - destruct (getCacheKey_present o) as [k Hk]; [congruence|].
    destruct (optimizeImage_shapes getImage o k st Hk) as (r & st1 & -> & _).
    split; [|done]. split; [by intros (e & st' & ?)|done].
  - destruct (getCacheKey_present o) as [k Hk]; [congruence|].
    destruct (optimizeImage_shapes getImage o k st Hk) as (r & st1 & -> & _).
    split; [|done]. split; [by intros (e & st' & ?)|done].
Qed.

(** X9. On a miss the result is either the capability's answer to a request
    handed to it, or one the module made up: then it has no source-set, its
    [src] is the normalized source identifier of the request, it echoes the
    request in [options] and [rawOptions] alike, and the dimensions in its
    attributes are those of the echo. *)
Theorem miss_result_origin
    (getImage : list Event -> ImageTransform -> Exn + GetImageResult)
    (o : OptimizeImageOptions) (k : string) (st : State) :
  getCacheKey o = Returned k ->
  imageCache st !! k = None ->
  exists r st',
    optimizeImage getImage o st = (Returned r, st')
    /\ ((routed_to_capability o
         /\ getImage (trace st) (transformRequest o) = inr r)
        \/ (synthesized r
            /\ srcStr (src o) = Returned (res_src r)
            /\ t_src (options r) = src o)).
Proof.
  intros Hk Hc. destruct (src o) as [|s|m] eqn:Hs.
  - by apply getCacheKey_returned in Hk.
  - destruct (startsWith s "http://" || startsWith s "https://") eqn:Hr.
    { eexists _, _. split; [by apply optimizeImage_remote|].
      right. by repeat split. }
    destruct (negb (truthy (width o)) || negb (truthy (height o))) eqn:Hd.
    { eexists _, _. split; [by apply optimizeImage_missing_dimensions|].
      right. by repeat split. }
    destruct (getImage (trace st) (transformRequest o)) as [e|r] eqn:Hg.
    + eexists _, _. split; [by eapply optimizeImage_path_failed|].
      right. by repeat split.
    + eexists _, _. split; [by eapply optimizeImage_path_transcoded|].
      left. split; [|done]. unfold routed_to_capability. rewrite Hs.
      apply orb_false_iff in Hd as [Hw Hh]. apply negb_false_iff in Hw, Hh.
      split; [|done]. intros Hrem. apply remote_url_iff in Hrem. congruence.
  - destruct (getImage (trace st) (transformRequest o)) as [e|r] eqn:Hg.
    + eexists _, _. split; [by eapply optimizeImage_metadata_failed|].
      right. by repeat split.
    + eexists _, _. split; [by eapply optimizeImage_metadata_transcoded|].
      left. split; [|done]. unfold routed_to_capability. by rewrite Hs.
Qed.

(** ** The RSS feeds: sorting *)

Section SortByKey.

Context {A : Type}.
Variable key : A -> Z.

(** The comparator of the feeds, for any key: descending. *)
Let descending (a b : A) : Z := key b - key a.

Lemma sort_insert_head (x : A) (l : list A) :
  Forall (fun y => key y <= key x) l -> sort_insert descending x l = x :: l.
Proof.
  destruct l as [|y l]; [done|]. intros Hall. apply Forall_cons in Hall as [Hy _].
  simpl. unfold descending at 1.
  destruct (Z.leb_spec (key y - key x) 0); [done|lia].
Qed.

Lemma sort_insert_Permutation (x : A) (l : list A) :
  Permutation (sort_insert descending x l) (x :: l).
Proof.
  induction l as [|y l IH]; simpl; [done|].
  destruct (descending x y <=? 0); [done|].
  rewrite IH. apply perm_swap.
Qed.

Lemma Array_sort_Permutation (l : list A) : Permutation (Array_sort descending l) l.
Proof.
  induction l as [|x l IH]; simpl; [done|].
  rewrite sort_insert_Permutation. by constructor.
Qed.

Lemma sort_insert_sorted (x : A) (l : list A) :
  StronglySorted (fun a b => key b <= key a) l ->
  StronglySorted (fun a b => key b <= key a) (sort_insert descending x l).
Proof.
  induction l as [|y l IH]; intros Hs; simpl.
  - repeat constructor.
  - apply StronglySorted_inv in Hs as [Hl Hy]. unfold descending at 1.
    destruct (Z.leb_spec (key y - key x) 0) as [Hle|Hgt].
    + constructor; [by constructor|]. constructor; [lia|].
      eapply Forall_impl; [exact Hy|]. simpl. intros z Hz. lia.
    + constructor; [by apply IH|].
      rewrite (sort_insert_Permutation x l). constructor; [lia|done].
Qed.

Lemma Array_sort_sorted (l : list A) :
  StronglySorted (fun a b => key b <= key a) (Array_sort descending l).
Proof.
  induction l as [|x l IH]; simpl; [constructor|]. by apply sort_insert_sorted.
Qed.

Lemma sort_insert_filter (p : A -> bool) (x : A) (l : list A) :
  StronglySorted (fun a b => key b <= key a) l ->
  List.filter p (sort_insert descending x l)
  = if p x then sort_insert descending x (List.filter p l) else List.filter p l.
Proof.
  induction l as [|y l IH]; intros Hs.
  - simpl. by destruct (p x).
  - apply StronglySorted_inv in Hs as [Hl Hy].
    cbn [sort_insert]. unfold descending at 1.
    destruct (Z.leb_spec (key y - key x) 0) as [Hle|Hgt].
    + cbn [List.filter]. destruct (p x) eqn:Hpx; [|done].
      symmetry. destruct (p y) eqn:Hpy.
      * apply sort_insert_head. constructor; [lia|].
        apply List.Forall_forall. intros z Hz. apply List.filter_In in Hz as [Hz _].
        rewrite List.Forall_forall in Hy. specialize (Hy z Hz). simpl in Hy. lia.
      * apply sort_insert_head.
        apply List.Forall_forall. intros z Hz. apply List.filter_In in Hz as [Hz _].
        rewrite List.Forall_forall in Hy. specialize (Hy z Hz). simpl in Hy. lia.
    + cbn [List.filter]. rewrite (IH Hl).
      destruct (p y) eqn:Hpy, (p x) eqn:Hpx; try done.
      cbn [sort_insert]. unfold descending at 2.
      destruct (Z.leb_spec (key y - key x) 0); [lia|done].
Qed.

Lemma Array_sort_filter (p : A -> bool) (l : list A) :
  List.filter p (Array_sort descending l) = Array_sort descending (List.filter p l).
Proof.
  induction l as [|x l IH]; [done|].
  cbn [Array_sort foldr]. rewrite sort_insert_filter by apply Array_sort_sorted.
  fold (Array_sort descending l). rewrite IH.
  cbn [List.filter]. by destruct (p x).
Qed.

Lemma Array_sort_same_key (t : Z) (l : list A) :
  Forall (fun y => key y = t) l -> Array_sort descending l = l.
Proof.
  induction l as [|x l IH]; intros Hall; [done|].
  apply Forall_cons in Hall as [Hx Hl].
  cbn [Array_sort foldr]. fold (Array_sort descending l). rewrite (IH Hl).
  apply sort_insert_head. eapply Forall_impl; [exact Hl|]. simpl. intros y ->. lia.
Qed.

(** Elements of equal key keep their order. *)
Lemma Array_sort_stable (t : Z) (l : list A) :
  List.filter (fun y => key y =? t) (Array_sort descending l)
  = List.filter (fun y => key y =? t) l.
Proof.
  rewrite Array_sort_filter. apply Array_sort_same_key with t.
  apply List.Forall_forall. intros y Hy. apply List.filter_In in Hy as [_ Hy]. lia.
Qed.

(** Descending order and the order within each key fix the whole list. *)
Lemma stable_sorted_unique (l1 l2 : list A) :
  StronglySorted (fun a b => key b <= key a) l1 ->
  StronglySorted (fun a b => key b <= key a) l2 ->
  (forall t, List.filter (fun y => key y =? t) l1 = List.filter (fun y => key y =? t) l2) ->
  l1 = l2.
Proof.
  revert l2. induction l1 as [|x l1 IH]; intros l2 Hs1 Hs2 Heq.
  - destruct l2 as [|y l2]; [done|].
    specialize (Heq (key y)). simpl in Heq. rewrite Z.eqb_refl in Heq. discriminate Heq.
  - destruct l2 as [|y l2].
    { specialize (Heq (key x)). simpl in Heq. rewrite Z.eqb_refl in Heq. discriminate Heq. }
    apply StronglySorted_inv in Hs1 as [Hs1 Hx], Hs2 as [Hs2 Hy].
    rewrite List.Forall_forall in Hx, Hy.
    assert (key x <= key y) as Hxy.
    { pose proof (Heq (key x)) as H. simpl in H. rewrite Z.eqb_refl in H.
      assert (In x (List.filter (fun z => key z =? key x) (y :: l2))) as Hin
        by (simpl; rewrite <- H; by left).
      apply List.filter_In in Hin as [[->|Hin] _]; [lia|]. by apply Hy. }
    assert (key y <= key x) as Hyx.
    { pose proof (Heq (key y)) as H. simpl in H. rewrite Z.eqb_refl in H.
      assert (In y (List.filter (fun z => key z =? key y) (x :: l1))) as Hin
        by (simpl; rewrite H; by left).
      apply List.filter_In in Hin as [[->|Hin] _]; [lia|]. by apply Hx. }
    assert (x = y) as ->.
    { pose proof (Heq (key x)) as H. simpl in H. rewrite Z.eqb_refl in H.
      assert ((key y =? key x) = true) as E by lia. rewrite E in H. by injection H. }
    f_equal. apply IH; [done..|]. intros t. specialize (Heq t). simpl in Heq.
    destruct (key y =? t); [by injection Heq|done].
Qed.

End SortByKey.

(** ** The RSS feeds: what is handed to [rss] *)

Lemma length_append (a b : string) :
  String.length (a +:+ b) = (String.length a + String.length b)%nat.
Proof.
  induction a as [|c a IH]; [done|].
  change (S (String.length (a +:+ b)) = S (String.length a + String.length b)).
  by rewrite IH.
Qed.

Lemma append_inj_r (a b c : string) : a +:+ c = b +:+ c -> a = b.
Proof.
  revert b. induction a as [|x a IH]; intros [|y b] Heq; [done| | |].
  - apply (f_equal String.length) in Heq.
    rewrite !length_append in Heq. simpl in Heq. lia.
  - apply (f_equal String.length) in Heq.
    rewrite !length_append in Heq. simpl in Heq. lia.
  - change (String x (a +:+ c) = String y (b +:+ c)) in Heq.
    injection Heq as -> Heq. by rewrite (IH b Heq).
Qed.

Lemma blog_link_inj (s1 s2 : string) :
  "/blog/" +:+ s1 +:+ "/" = "/blog/" +:+ s2 +:+ "/" -> s1 = s2.
Proof. intros H. apply (inj (String.app "/blog/")) in H. by apply append_inj_r in H. Qed.

Lemma NoDup_map_inj {A B : Type} (f : A -> B) (l : list A) :
  (forall x y, f x = f y -> x = y) -> NoDup l -> NoDup (map f l).
Proof.
  intros Hinj. induction 1 as [|x l Hx Hl IH]; simpl; constructor; [|done].
  rewrite list_elem_of_In, in_map_iff. intros (y & Hy & Hin).
  apply Hinj in Hy as ->. by apply list_elem_of_In in Hin.
Qed.

Lemma filter_map_toItem (t : Z) (l : list CollectionEntry) :
  items_of_date t (map toItem l) = map toItem (posts_of_date t l).
Proof.
  unfold items_of_date, posts_of_date.
  induction l as [|p l IH]; [done|]. simpl.
  destruct (pubDate (data p) =? t); simpl; by rewrite IH.
Qed.

Lemma sortedPosts_sorted (posts : list CollectionEntry) :
  StronglySorted (fun a b => pubDate (data b) <= pubDate (data a))
    (Array_sort compareByDate posts).
Proof. apply (Array_sort_sorted (fun p => pubDate (data p))). Qed.

Lemma sortedPosts_Permutation (posts : list CollectionEntry) :
  Permutation (Array_sort compareByDate posts) posts.
Proof. apply (Array_sort_Permutation (fun p => pubDate (data p))). Qed.

Lemma feedOptions_newest_first (T D : string) (ctx : APIContext)
    (posts : list CollectionEntry) :
  newest_first (items (feedOptions T D ctx posts)).
Proof.
  unfold newest_first, feedOptions. simpl.
  pose proof (sortedPosts_sorted posts) as Hs.
  induction Hs as [|p l Hl IH Hp]; simpl; constructor; [done|].
  apply List.Forall_forall. intros i Hi. apply in_map_iff in Hi as (q & <- & Hq).
  rewrite List.Forall_forall in Hp. by apply Hp.
Qed.

(** X10. Both feeds list their items newest first: no item is older than
    any item after it.  (The handler is run with the identity for [rss], so
    that its value is the argument it hands over.) *)
Theorem feeds_newest_first
    (getCollection : option (CollectionEntry -> bool) -> list CollectionEntry)
    (SITE_TITLE SITE_DESCRIPTION : string) (context : APIContext) :
  newest_first
    (items (FeedWithoutDrafts.GET (fun opts => opts) getCollection
              SITE_TITLE SITE_DESCRIPTION context))
  /\ newest_first
       (items (FeedAll.GET (fun opts => opts) getCollection
                 SITE_TITLE SITE_DESCRIPTION context)).
Proof. split; apply feedOptions_newest_first. Qed.

(** X11. A feed has one item for each post it fetched, no more and no less:
    its items are a rearrangement of the fetched posts mapped to items.
    Title, description and site are the site's constants and the site of the
    request context. *)
Theorem feeds_publish_every_post
    (getCollection : option (CollectionEntry -> bool) -> list CollectionEntry)
    (SITE_TITLE SITE_DESCRIPTION : string) (context : APIContext) :
  let without := FeedWithoutDrafts.GET (fun opts => opts) getCollection
                   SITE_TITLE SITE_DESCRIPTION context in
  let all := FeedAll.GET (fun opts => opts) getCollection
               SITE_TITLE SITE_DESCRIPTION context in
  Permutation (items without) (map toItem (getCollection (Some notDraft)))
  /\ Permutation (items all) (map toItem (getCollection None))
  /\ length (items without) = length (getCollection (Some notDraft))
  /\ length (items all) = length (getCollection None)
  /\ (rss_title without, rss_description without, rss_site without)
     = (SITE_TITLE, SITE_DESCRIPTION, site context)
  /\ (rss_title all, rss_description all, rss_site all)
     = (SITE_TITLE, SITE_DESCRIPTION, site context).
Proof.
  assert (forall posts,
            Permutation (map toItem (Array_sort compareByDate posts)) (map toItem posts))
    as Hperm.
  { intros posts. apply Permutation_map, sortedPosts_Permutation. }
  simpl. split; [apply Hperm|]. split; [apply Hperm|].
  split; [|split; [|done]].
  - rewrite (Permutation_length (Hperm _)). apply length_map.
  - rewrite (Permutation_length (Hperm _)). apply length_map.
Qed.

(** X12. Posts of the same date come out in the order the collection gave
    them: for every date, the feed's items of that date are the fetched
    posts of that date, in order. *)
Theorem feeds_keep_same_date_order
    (getCollection : option (CollectionEntry -> bool) -> list CollectionEntry)
    (SITE_TITLE SITE_DESCRIPTION : string) (context : APIContext) (t : Z) :
  items_of_date t
    (items (FeedWithoutDrafts.GET (fun opts => opts) getCollection
              SITE_TITLE SITE_DESCRIPTION context))
  = map toItem (posts_of_date t (getCollection (Some notDraft)))
  /\ items_of_date t
       (items (FeedAll.GET (fun opts => opts) getCollection
                 SITE_TITLE SITE_DESCRIPTION context))
     = map toItem (posts_of_date t (getCollection None)).
Proof.
  assert (forall posts,
            items_of_date t (map toItem (Array_sort compareByDate posts))
            = map toItem (posts_of_date t posts)) as Hstable.
  { intros posts. rewrite filter_map_toItem. f_equal.
    apply (Array_sort_stable (fun p => pubDate (data p))). }
  split; apply Hstable.
Qed.

(** X13. The order of a feed is fully determined by the fetched posts: any
    arrangement of entries that is newest first and has, for every date, the
    fetched posts of that date in their order, yields the feed's items. *)
Theorem feed_order_determined
    (getCollection : option (CollectionEntry -> bool) -> list CollectionEntry)
    (SITE_TITLE SITE_DESCRIPTION : string) (context : APIContext)
    (arranged : list CollectionEntry) :
  StronglySorted (fun a b => pubDate (data b) <= pubDate (data a)) arranged ->
  (forall t, posts_of_date t arranged = posts_of_date t (getCollection None)) ->
  items (FeedAll.GET (fun opts => opts) getCollection
           SITE_TITLE SITE_DESCRIPTION context)
  = map toItem arranged.
Proof.
  intros Hsorted Hdates. simpl. f_equal. symmetry.
  apply (stable_sorted_unique (fun p => pubDate (data p))); [done| |].
  - apply sortedPosts_sorted.
  - intros t. rewrite (Array_sort_stable (fun p => pubDate (data p))). apply Hdates.
Qed.

(** X14. Every item links to [/blog/<slug>/] of a fetched post, and posts
    with different slugs get different links: when the slugs of the fetched
    posts are pairwise distinct, so are the links of the feed. *)
Theorem feed_links_distinct
    (getCollection : option (CollectionEntry -> bool) -> list CollectionEntry)
    (SITE_TITLE SITE_DESCRIPTION : string) (context : APIContext) :
  NoDup (map slug (getCollection None)) ->
  let feed := FeedAll.GET (fun opts => opts) getCollection
                SITE_TITLE SITE_DESCRIPTION context in
  NoDup (map link (items feed))
  /\ forall i, In i (items feed) ->
       exists p, In p (getCollection None)
                 /\ link i = "/blog/" +:+ slug p +:+ "/".
Proof.
  intros Hslugs feed. subst feed. simpl.
  pose proof (sortedPosts_Permutation (getCollection None)) as Hperm.
  split.
  - rewrite map_map.
    change (fun x => link (toItem x)) with (fun x => "/blog/" +:+ slug x +:+ "/").
    rewrite <- (map_map slug (fun s => "/blog/" +:+ s +:+ "/")).
    apply NoDup_map_inj; [apply blog_link_inj|].
    by rewrite (Permutation_map slug Hperm).
  - intros i Hi. apply in_map_iff in Hi as (p & <- & Hp).
    exists p. split; [|done]. eapply Permutation_in; [exact Hperm|done].
Qed.

(** X15. When [getCollection] applies its filter to the collection, the
    feed without drafts is the full feed with the drafts taken out: the same
    posts in the same order, and no item of a draft. *)
Theorem draft_free_feed_is_filtered_feed
    (getCollection : option (CollectionEntry -> bool) -> list CollectionEntry)
    (SITE_TITLE SITE_DESCRIPTION : string) (context : APIContext) :
  filters_collection getCollection ->
  items (FeedWithoutDrafts.GET (fun opts => opts) getCollection
           SITE_TITLE SITE_DESCRIPTION context)
  = map toItem
      (List.filter notDraft (Array_sort compareByDate (getCollection None)))
  /\ items (FeedAll.GET (fun opts => opts) getCollection
              SITE_TITLE SITE_DESCRIPTION context)
     = map toItem (Array_sort compareByDate (getCollection None))
  /\ (forall p, In p (Array_sort compareByDate (getCollection (Some notDraft)))
                <-> In p (getCollection None) /\ draft (data p) <> Some true).
Proof.
  intros Hfilter. simpl. rewrite (Hfilter notDraft).
  split; [|split; [done|]].
  - f_equal. symmetry. apply (Array_sort_filter (fun p => pubDate (data p))).
  - intros p.
    pose proof (sortedPosts_Permutation (List.filter notDraft (getCollection None)))
      as Hperm.
    split.
    + intros Hin. apply (Permutation_in _ Hperm) in Hin.
      apply List.filter_In in Hin as [Hin Hnd]. split; [done|].
      unfold notDraft in Hnd. intros E. by rewrite E in Hnd.
    + intros [Hin Hnd]. apply (Permutation_in _ (Permutation_sym Hperm)).
      apply List.filter_In. split; [done|]. unfold notDraft.
      by destruct (draft (data p)) as [[]|].
Qed.

(** ** Path validation looks at the beginning only *)

Lemma isValidImagePath_eval (p : string) (st : State) :
  isValidImagePath (Some p) st
  = (Returned (startsWith p "http://" || startsWith p "https://"
               || startsWith p "/" || startsWith p "./" || startsWith p "../"), st).
Proof.
  destruct p as [|a p]; [done|]. unfold isValidImagePath, ret.
  by destruct (startsWith (String a p) "http://"), (startsWith (String a p) "https://"),
    (startsWith (String a p) "/"), (startsWith (String a p) "./"),
    (startsWith (String a p) "../").
Qed.

Lemma has_prefix_append (x p q : string) : has_prefix x p -> has_prefix x (p +:+ q).
Proof. intros [rest ->]. exists (rest +:+ q). apply append_assoc. Qed.

(** X16. [isValidImagePath] judges a path by its beginning alone: whatever
    is appended to a valid path, the result is valid; nothing about the rest
    of the path (extension, characters, existence) is looked at. *)
Theorem valid_path_extension (p q : string) (st : State) :
  isValidImagePath (Some p) st = (Returned true, st) ->
  isValidImagePath (Some (p +:+ q)) st = (Returned true, st).
Proof.
  rewrite !isValidImagePath_eval. intros [= Hp]. f_equal. f_equal.
  rewrite !orb_true_iff, !startsWith_has_prefix in Hp.
  rewrite !orb_true_iff, !startsWith_has_prefix.
  destruct Hp as [[[[H|H]|H]|H]|H]; apply (has_prefix_append _ _ q) in H; tauto.
Qed.

(** ** The further properties at concrete inputs *)

(** [transcoded_result_is_cached] at [/local.png], 400 x 225. *)
Lemma transcoded_result_is_cached_witness :
  exists st',
    optimizeImage workingCapability localWithDims initialState
    = (Returned (sampleTranscoded (transformRequest localWithDims)), st')
    /\ imageCache st' !! "/local.png-400-225-auto-auto"
       = Some (sampleTranscoded (transformRequest localWithDims)).
Proof.
  destruct (transcoded_result_is_cached workingCapability localWithDims
              "/local.png-400-225-auto-auto"
              (sampleTranscoded (transformRequest localWithDims)) initialState
              localWithDims_routed eq_refl eq_refl eq_refl)
    as (st' & Hrun & _ & Hins & _).
  exists st'. split; [exact Hrun|]. rewrite Hins. apply lookup_insert_eq.
Defined.

(** [optimizeImage_footprint] at a local path without dimensions. *)
Lemma optimizeImage_footprint_witness :
  src localNoDims <> SrcUndefined
  /\ exists r st',
       optimizeImage failingCapability localNoDims initialState = (Returned r, st')
       /\ (count_events is_getImage (emitted initialState st') <= 1)%nat.
Proof.
  assert (src localNoDims <> SrcUndefined) as Hsrc by discriminate.
  split; [exact Hsrc|].
  destruct (optimizeImage_footprint failingCapability localNoDims initialState Hsrc)
    as (r & st' & Hrun & _ & Hcalls & _).
  exists r, st'. exact (conj Hrun Hcalls).
Defined.

(** [wrappers_always_give_dimensions] at the hero image of [/local.png]. *)
Lemma wrappers_always_give_dimensions_witness :
  count_events is_getImage
    (emitted initialState
       (getOptimizedHeroImage workingCapability (SrcString "/local.png") None
          initialState).2) = 1%nat.
Proof.
  assert ("/local.png" <> "") as Hne by discriminate.
  exact (proj1 (proj2 (proj2 (wrappers_always_give_dimensions workingCapability
                                (SrcString "/local.png") None initialState)))
           "/local.png" "/local.png-1200-630-webp-80"
           eq_refl Hne local_png_not_remote eq_refl eq_refl).
Defined.

(** [wrappers_repeat] at the hero image of [/a.png]. *)
Lemma wrappers_repeat_witness :
  src_falsy (SrcString "/a.png") = false
  /\ exists r st1,
       getOptimizedHeroImage workingCapability (SrcString "/a.png") heroOverrides
         initialState = (Returned (Some r), st1)
       /\ getOptimizedHeroImage workingCapability (SrcString "/a.png") heroOverrides
            st1 = (Returned (Some r), st1).
Proof.
  split; [reflexivity|].
  exact (proj1 (wrappers_repeat workingCapability (SrcString "/a.png") heroOverrides
                  initialState eq_refl)).
Defined.

Lemma heroOverrides_nonneg : nonneg_overrides heroOverrides.
Proof. unfold nonneg_overrides. simpl. lia. Qed.

Lemma cardOverrides_nonneg : nonneg_overrides cardOverrides.
Proof. unfold nonneg_overrides. simpl. lia. Qed.

(** [hero_card_share_entry] at a hero of 400 x 225 and a card of quality 80. *)
Lemma hero_card_share_entry_witness :
  getCacheKey (heroOptions (SrcString "/a.png") heroOverrides)
  = getCacheKey (cardOptions (SrcString "/a.png") cardOverrides)
  /\ getCacheKey (heroOptions (SrcString "/a.png") None)
     <> getCacheKey (cardOptions (SrcString "/a.png") None).
Proof.
  assert (SrcString "/a.png" <> SrcUndefined) as Hsrc by discriminate.
  pose proof (hero_card_share_entry (SrcString "/a.png") heroOverrides cardOverrides
                Hsrc heroOverrides_nonneg cardOverrides_nonneg) as [Hiff Hne].
  split; [|exact Hne].
  apply (proj2 Hiff). repeat split.
Defined.

(** [string_request_zero_is_unset] at a request and its copy with quality 0. *)
Lemma string_request_zero_is_unset_witness :
  optimizeImage workingCapability directRequest initialState
  = optimizeImage workingCapability zeroQualityRequest initialState.
Proof.
  exact (string_request_zero_is_unset workingCapability directRequest zeroQualityRequest
           "/a.png" initialState eq_refl eq_refl eq_refl eq_refl eq_refl eq_refl).
Defined.

(** [optimizeImage_throws_iff] at a request without a source. *)
Lemma optimizeImage_throws_iff_witness :
  exists e st',
    optimizeImage workingCapability noSourceRequest initialState = (Threw e, st').
Proof.
  exact (proj2 (proj1 (optimizeImage_throws_iff workingCapability noSourceRequest
                         initialState)) eq_refl).
Defined.

(** [miss_result_origin] at a remote request on the empty cache. *)
Lemma miss_result_origin_witness :
  exists r st',
    optimizeImage workingCapability remoteRequest initialState = (Returned r, st')
    /\ ((routed_to_capability remoteRequest
         /\ workingCapability (trace initialState) (transformRequest remoteRequest) = inr r)
        \/ (synthesized r
            /\ srcStr (src remoteRequest) = Returned (res_src r)
            /\ t_src (options r) = src remoteRequest)).
Proof.
  exact (miss_result_origin workingCapability remoteRequest
           "https://example.com/x.jpg-auto-auto-auto-auto" initialState
           eq_refl eq_refl).
Defined.

Lemma arrangedSample_sorted :
  StronglySorted (fun a b => pubDate (data b) <= pubDate (data a)) arrangedSample.
Proof. unfold arrangedSample. simpl. repeat constructor; simpl; lia. Qed.

Lemma arrangedSample_dates (t : Z) :
  posts_of_date t arrangedSample = posts_of_date t (sampleCollection None).
Proof.
  unfold posts_of_date, arrangedSample, sampleCollection, samplePosts.
  cbn -[Z.eqb].
  destruct (Z.eqb_spec 1760000000000 t), (Z.eqb_spec 1759795200000 t),
    (Z.eqb_spec 1700000000000 t); try reflexivity; lia.
Qed.

(** [feed_order_determined] at the sample collection. *)
Lemma feed_order_determined_witness :
  items (FeedAll.GET (fun opts => opts) sampleCollection "Blog" "Posts"
           {| site := Some "https://andrearomanello.com" |})
  = map toItem arrangedSample.
Proof.
  exact (feed_order_determined sampleCollection "Blog" "Posts"
           {| site := Some "https://andrearomanello.com" |} arrangedSample
           arrangedSample_sorted arrangedSample_dates).
Defined.

Lemma sampleCollection_slugs : NoDup (map slug (sampleCollection None)).
Proof. apply (bool_decide_unpack _). by vm_compute. Qed.

(** [feed_links_distinct] at the sample collection. *)
Lemma feed_links_distinct_witness :
  NoDup (map link
           (items (FeedAll.GET (fun opts => opts) sampleCollection "Blog" "Posts"
                     {| site := None |}))).
Proof.
  exact (proj1 (feed_links_distinct sampleCollection "Blog" "Posts"
                  {| site := None |} sampleCollection_slugs)).
Defined.

Lemma sampleCollection_filters : filters_collection sampleCollection.
Proof. intros f. reflexivity. Qed.

(** [draft_free_feed_is_filtered_feed] at the sample collection. *)
Lemma draft_free_feed_is_filtered_feed_witness :
  items (FeedWithoutDrafts.GET (fun opts => opts) sampleCollection "Blog" "Posts"
           {| site := None |})
  = map toItem
      (List.filter notDraft (Array_sort compareByDate (sampleCollection None))).
Proof.
  exact (proj1 (draft_free_feed_is_filtered_feed sampleCollection "Blog" "Posts"
                  {| site := None |} sampleCollection_filters)).
Defined.

(** [valid_path_extension] at [/a] extended by [/b.png]. *)
Lemma valid_path_extension_witness :
  isValidImagePath (Some ("/a" +:+ "/b.png")) initialState = (Returned true, initialState).
Proof.
  exact (valid_path_extension "/a" "/b.png" initialState eq_refl).
Defined.

(** The sample feed without drafts, run. *)
Example sample_feed :
  map link
    (items (FeedWithoutDrafts.GET (fun opts => opts) sampleCollection "Blog" "Posts"
              {| site := None |}))
  = ["/blog/newest/"; "/blog/iot-architecture/"; "/blog/second-post/"]
  /\ map link
       (items (FeedAll.GET (fun opts => opts) sampleCollection "Blog" "Posts"
                 {| site := None |}))
     = ["/blog/newest/"; "/blog/iot-architecture/"; "/blog/second-post/";
        "/blog/old-draft/"].
Proof. vm_compute. by split. Qed.
